(** * LOOLWSD: the session broker of loolwsd/LOOLWSD.cpp

    A shallow embedding of the WebSocket receive loops, the per-session
    work queue, the jail builder, the file-transfer handler and the
    supervisor of [loolwsd/LOOLWSD.cpp], with the properties the
    specification states about them.

    Conventions.  A frame payload is a [string] (a sequence of bytes);
    [int] and [UInt64] values are [Z]; the work queue is a [list string]
    with its head first; the child table is a [gmap Z Z]; the file
    system is a [gmap] from paths to nodes. *)

From Stdlib Require Import ZArith Lia Ascii String List Bool.
From stdpp Require Import base list strings gmap.

Local Open Scope Z_scope.

(* ===================================================================== *)
(** ** std::string and Poco string helpers *)
(* ===================================================================== *)

Module Str.

(** [std::string::size]. *)
Definition size (s : string) : Z := Z.of_nat (String.length s).

(** [x.find(needle)], searching from position 0; [None] is [npos]. *)
Fixpoint find (needle hay : string) {struct hay} : option nat :=
  if String.prefix needle hay then Some 0%nat
  else match hay with
       | EmptyString => None
       | String _ rest => option_map S (find needle rest)
       end.

Definition is_empty (s : string) : bool :=
  match s with EmptyString => true | String _ _ => false end.

(** [Poco::Ascii::isSpace]: HT, LF, VT, FF, CR and the blank. *)
Definition isSpace (c : ascii) : bool :=
  let n := nat_of_ascii c in
  (Nat.eqb n 32 || (Nat.leb 9 n && Nat.leb n 13))%bool.

Fixpoint trimLeft (s : string) : string :=
  match s with
  | EmptyString => EmptyString
  | String c rest => if isSpace c then trimLeft rest else s
  end.

Fixpoint trimRight (s : string) : string :=
  match s with
  | EmptyString => EmptyString
  | String c rest =>
      let rest' := trimRight rest in
      if (isSpace c && is_empty rest')%bool then EmptyString
      else String c rest'
  end.

(** [Poco::trim]. *)
Definition trim (s : string) : string := trimRight (trimLeft s).

(** Append one character at the end, [token += c]. *)
Fixpoint push_back (s : string) (c : ascii) : string :=
  match s with
  | EmptyString => String c EmptyString
  | String a rest => String a (push_back rest c)
  end.

End Str.

(* ===================================================================== *)
(** ** LOOLProtocol helpers and Poco::StringTokenizer *)
(* ===================================================================== *)

Module LOOLProtocol.

Definition LF : ascii := ascii_of_nat 10.

(** Modelled from the spec: [getFirstLine] is declared in
    LOOLProtocol.hpp, which is not among the sources; the spec's
    "first line is the command; remainder is payload" is read as the
    bytes of the message before its first line feed, all of them when
    there is none. *)
Fixpoint getFirstLine (message : string) : string :=
  match message with
  | EmptyString => EmptyString
  | String c rest =>
      if Ascii.eqb c LF then EmptyString else String c (getFirstLine rest)
  end.

Definition is_digit (c : ascii) : bool :=
  let n := nat_of_ascii c in (Nat.leb 48 n && Nat.leb n 57)%bool.

Fixpoint decimal (acc : Z) (s : string) : option Z :=
  match s with
  | EmptyString => Some acc
  | String c rest =>
      if is_digit c
      then decimal (10 * acc + Z.of_nat (nat_of_ascii c - 48)) rest
      else None
  end.

Fixpoint strip_prefix (p s : string) : option string :=
  match p with
  | EmptyString => Some s
  | String a p' =>
      match s with
      | EmptyString => None
      | String b s' => if Ascii.eqb a b then strip_prefix p' s' else None
      end
  end.

(** The largest value of an [int]. *)
Definition INT_MAX : Z := 2147483647.

(** Modelled from the spec: [getTokenInteger] is declared in
    LOOLProtocol.hpp, which is not among the sources; following the
    spec's [key=value] tokens and [size=N], a token [name=DIGITS] with
    at least one decimal digit yields its value, any other token
    fails.  The value is stored through [int& value]: digits that
    denote more than [INT_MAX] give no value. *)
Definition getTokenInteger (token name : string) : option Z :=
  match strip_prefix name token with
  | Some (String c digits) =>
      if Ascii.eqb c "="%char then
        if Str.is_empty digits then None
        else
          match decimal 0 digits with
          | Some value => if value <=? INT_MAX then Some value else None
          | None => None
          end
      else None
  | _ => None
  end.

(** [Poco::StringTokenizer(str, separators,
    TOK_IGNORE_EMPTY | TOK_TRIM)], the only form the source uses: the
    string is cut at every separator character, each piece is trimmed
    of white space and empty pieces are dropped.  [token] is the piece
    being accumulated. *)
Definition emit (token : string) : list string :=
  let t := Str.trim token in
  if Str.is_empty t then [] else [t].

Fixpoint tokenize (separators : string) (str : string) (token : string)
  : list string :=
  match str with
  | EmptyString => emit token
  | String c rest =>
      match Str.find (String c EmptyString) separators with
      | Some _ => emit token ++ tokenize separators rest EmptyString
      | None => tokenize separators rest (Str.push_back token c)
      end
  end.

Definition StringTokenizer (str separators : string) : list string :=
  tokenize separators str EmptyString.

End LOOLProtocol.

(* ===================================================================== *)
(** ** tsqueue<std::string> *)
(* ===================================================================== *)

Module tsqueue.

(** Modelled from the spec: tsqueue.h is not among the sources.  The
    spec (Work Queue) gives a FIFO with [put] appending at the tail,
    [get] popping the head and blocking while the queue is empty,
    [removeIf] dropping every element the predicate holds for and
    keeping the order of the others, and [clear] dropping everything.
    Each operation is atomic.  The head of the queue is the head of
    the list; a blocked [get] is [None]. *)
Definition t := list string.

Definition put (value : string) (q : t) : t := q ++ [value].

Definition get (q : t) : option (string * t) :=
  match q with
  | [] => None
  | x :: q' => Some (x, q')
  end.

Fixpoint remove_if (p : string -> bool) (q : t) : t :=
  match q with
  | [] => []
  | x :: q' => if p x then remove_if p q' else x :: remove_if p q'
  end.

Definition clear (q : t) : t := [].

End tsqueue.

(* ===================================================================== *)
(** ** The WebSocket channel *)
(* ===================================================================== *)

Module WebSocket.

Definition FRAME_OP_BITMASK : Z := 15.
Definition FRAME_OP_CLOSE : Z := 8.
Definition FRAME_TEXT : Z := 129.

(** The exceptions [handleRequest] catches. *)
Inductive exception := WebSocketException | IOException.

(** What the peer and the transport do at one call of
    [receiveFrame]: a frame arrives, or the call throws. *)
Inductive wire :=
| Frame (flags : Z) (payload : string)
| Throws (e : exception).

Inductive received :=
| Received (n : Z) (flags : Z) (buffer : string)
| Thrown (e : exception).

(** [ws->receiveFrame(buffer, length, flags)].  Poco returns the
    payload and its size, and throws a WebSocketException when the
    payload does not fit into the [length] bytes of the buffer. *)
Definition receiveFrame (length : Z) (w : wire) : received :=
  match w with
  | Frame flags payload =>
      if Str.size payload <=? length
      then Received (Str.size payload) flags payload
      else Thrown WebSocketException
  | Throws e => Thrown e
  end.

(** [n > 0 && (flags & FRAME_OP_BITMASK) != FRAME_OP_CLOSE], the test
    of the loop body and of the loop condition. *)
Definition data_frame (n flags : Z) : bool :=
  ((0 <? n) && negb (Z.land flags FRAME_OP_BITMASK =? FRAME_OP_CLOSE))%bool.

End WebSocket.

(* ===================================================================== *)
(** ** WebSocketRequestHandler::handleRequest and QueueHandler::run *)
(* ===================================================================== *)

Module Master.
Import WebSocket.

(** [LOOLSession::Kind]. *)
Inductive Kind := ToClient | ToPrisoner | ToChild.

Definition Kind_eqb (a b : Kind) : bool :=
  match a, b with
  | ToClient, ToClient | ToPrisoner, ToPrisoner | ToChild, ToChild => true
  | _, _ => false
  end.

(** Where the receiver thread stands: at [receiveFrame] of the loop
    (line 225), at [receiveFrame] of the large follow-up message
    (line 259, with [largeBuffer] of [size] bytes on its stack),
    between [queue.clear()] and [queue.put("eof")] (lines 298-299), or
    at [queueHandlerThread.join()].  [Killed]: the stack of the thread
    had no room for [char largeBuffer[size]] (line 257) and the
    process was ended by SIGSEGV, with all its threads. *)
Inductive receiver_pc :=
| AtReceive
| AtReceiveLarge (size : Z)
| AtPutEof
| AtJoin
| Killed.

(** The queue handler thread: not started (sessions other than
    ToClient), inside the loop of [run], or returned from it. *)
Inductive consumer_pc := NotStarted | Running | Exited.

(** One connection: the work queue, the messages handed to
    [session->handleInput] so far (oldest first), and the two
    threads. *)
Record World := mkWorld {
  queue : tsqueue.t;
  inputs : list string;
  receiver : receiver_pc;
  consumer : consumer_pc
}.

Definition set_queue (q : tsqueue.t) (W : World) : World :=
  mkWorld q (inputs W) (receiver W) (consumer W).
Definition set_receiver (p : receiver_pc) (W : World) : World :=
  mkWorld (queue W) (inputs W) p (consumer W).
Definition set_consumer (c : consumer_pc) (W : World) : World :=
  mkWorld (queue W) (inputs W) (receiver W) c.

(** The lambda given to [queue.remove_if] (lines 238-240). *)
Definition cancellable (x : string) : bool :=
  (match Str.find "tile " x with Some O => true | _ => false end
   && match Str.find "id=" x with None => true | Some _ => false end)%bool.

(** [tokens.count() == 1 && tokens[0] == "canceltiles"]. *)
Definition is_canceltiles (tokens : list string) : bool :=
  match tokens with
  | [t0] => String.eqb t0 "canceltiles"
  | _ => false
  end.

(** [int size; tokens.count() == 2 && tokens[0] == "nextmessage:" &&
    getTokenInteger(tokens[1], "size", size) && size > 0]; the size,
    an [int], when the test holds. *)
Definition nextmessage (tokens : list string) : option Z :=
  match tokens with
  | [t0; t1] =>
      if String.eqb t0 "nextmessage:" then
        match LOOLProtocol.getTokenInteger t1 "size" with
        | Some size => if 0 <? size then Some size else None
        | None => None
        end
      else None
  | _ => None
  end.

(** [char largeBuffer[size]] (line 257): a variable-length array on
    the stack of the handler thread.  With room for [stack] bytes
    there it is made when [size] is no more than that; otherwise the
    first use of the stack below it faults and the process is
    killed. *)
Definition largeBuffer (stack size : Z) (W : World) : World :=
  if size <=? stack
  then set_receiver (AtReceiveLarge size) W
  else set_receiver Killed W.

(** [queue.clear()] on the way out of the receive loop. *)
Definition clear_queue (W : World) : World :=
  set_receiver AtPutEof (set_queue (tsqueue.clear (queue W)) W).

(** [queue.put("eof")], after which the receiver joins. *)
Definition put_eof (W : World) : World :=
  set_receiver AtJoin (set_queue (tsqueue.put "eof" (queue W)) W).

Section Session.

(** [LOOLSession::handleInput] lives in LOOLSession.cpp; its result
    may depend on everything the session was given before. *)
Variable handleInput : list string -> string -> bool.

(** The greatest number of bytes [largeBuffer] (line 257) can take
    on the stack of the handler thread, room for the calls made while
    it is there left aside; the size of the stack is set outside this
    file. *)
Variable stack : Z.

Definition handle (W : World) (message : string) : bool * World :=
  (handleInput (inputs W) message,
   mkWorld (queue W) (inputs W ++ [message]) (receiver W) (consumer W)).

(** One call of [receiveFrame] by the receiver and what follows it
    up to the next call (lines 222-274, and line 298 when the loop
    is left). *)
Definition receiver_step (kind : Kind) (W : World) (w : wire) : World :=
  match receiver W with
  | AtReceive =>
      match receiveFrame 100000 w with
      | Thrown _ => clear_queue W
      | Received n flags buffer =>
          if data_frame n flags then
            let firstLine := LOOLProtocol.getFirstLine buffer in
            let tokens := LOOLProtocol.StringTokenizer firstLine " " in
            if (Kind_eqb kind ToClient && (Str.size firstLine =? n))%bool then
              if is_canceltiles tokens then
                snd (handle
                       (set_queue (tsqueue.remove_if cancellable (queue W)) W)
                       buffer)
              else set_queue (tsqueue.put firstLine (queue W)) W
            else
              match nextmessage tokens with
              | Some size => largeBuffer stack size W
              | None =>
                  let (ok, W1) := handle W buffer in
                  if ok then W1 else clear_queue W1
              end
          else clear_queue W
      end
  | AtReceiveLarge size =>
      match receiveFrame size w with
      | Thrown _ => clear_queue W
      | Received n flags largeBuffer =>
          if data_frame n flags then
            let (ok, W1) := handle W largeBuffer in
            if ok then set_receiver AtReceive W1 else clear_queue W1
          else clear_queue W
      end
  | AtPutEof | AtJoin | Killed => W
  end.

(** The receiver alone, over what the channel delivers. *)
Definition receive_all (kind : Kind) (script : list wire) (W : World) : World :=
  fold_left (receiver_step kind) script W.

Definition finish (W : World) : World :=
  match receiver W with
  | AtPutEof => put_eof W
  | _ => W
  end.

Definition handleRequest (kind : Kind) (script : list wire) (W : World) : World :=
  finish (receive_all kind script W).

(** One turn of the loop of [QueueHandler::run] (lines 156-163);
    [None] while [_queue.get()] blocks or the thread does not run. *)
Definition consumer_step (W : World) : option World :=
  match consumer W with
  | Running =>
      match tsqueue.get (queue W) with
      | None => None
      | Some (input, q') =>
          if String.eqb input "eof"
          then Some (set_consumer Exited (set_queue q' W))
          else
            let (ok, W1) := handle (set_queue q' W) input in
            Some (if ok then W1 else set_consumer Exited W1)
      end
  | NotStarted | Exited => None
  end.

(** [QueueHandler::run] on its own: turns of the loop until the
    queue is drained or the thread leaves the loop. *)
Fixpoint run (q : tsqueue.t) (seen : list string) : consumer_pc * list string * tsqueue.t :=
  match q with
  | [] => (Running, seen, [])
  | input :: q' =>
      if String.eqb input "eof" then (Exited, seen, q')
      else if handleInput seen input then run q' (seen ++ [input])
           else (Exited, seen ++ [input], q')
  end.

(** The two threads of a connection, interleaved at the queue
    operations; a killed process takes no step. *)
Inductive sys_step (kind : Kind) : World -> World -> Prop :=
| step_receive W w :
    receiver W = AtReceive \/ (exists size, receiver W = AtReceiveLarge size) ->
    sys_step kind W (receiver_step kind W w)
| step_put_eof W :
    receiver W = AtPutEof ->
    sys_step kind W (put_eof W)
| step_consume W W' :
    receiver W <> Killed ->
    consumer_step W = Some W' ->
    sys_step kind W W'.

End Session.

(** A fresh connection, as [handleRequest] sets it up (lines
    189-215): the queue handler runs for ToClient sessions only. *)
Definition start (kind : Kind) : World :=
  mkWorld [] [] AtReceive (if Kind_eqb kind ToClient then Running else NotStarted).

End Master.

(* ===================================================================== *)
(** ** LOOLWSD::componentMain: the receive loop of a child process *)
(* ===================================================================== *)

Module Child.
Import WebSocket.

(** The receiver of the child: inside the loop (line 861), stopped by
    the failed [assert] of line 869, in the [catch] block after
    [receiveFrame] threw (line 891), or past the loop, where the queue
    was cleared and "eof" queued (lines 887-889). *)
Inductive status := Receiving | AssertionFailed | ExceptionCaught | LoopLeft.

Record World := mkWorld {
  queue : tsqueue.t;
  state : status
}.

(** One call of [receiveFrame] into [char buffer[1024]] and the rest
    of the loop body (lines 858-885). *)
Definition receiver_step (W : World) (w : wire) : World :=
  match state W with
  | Receiving =>
      match receiveFrame 1024 w with
      | Thrown _ => mkWorld (queue W) ExceptionCaught
      | Received n flags buffer =>
          if data_frame n flags then
            let firstLine := LOOLProtocol.getFirstLine buffer in
            let tokens := LOOLProtocol.StringTokenizer firstLine " " in
            if negb (Str.size firstLine =? n) then
              mkWorld (queue W) AssertionFailed
            else if Master.is_canceltiles tokens then
              mkWorld (tsqueue.remove_if Master.cancellable (queue W)) Receiving
            else mkWorld (tsqueue.put firstLine (queue W)) Receiving
          else mkWorld (tsqueue.put "eof" (tsqueue.clear (queue W))) LoopLeft
      end
  | _ => W
  end.

Definition componentMain_loop (script : list wire) (W : World) : World :=
  fold_left receiver_step script W.

End Child.

(* ===================================================================== *)
(** ** Files: Poco::File, Poco::Path, link(2), stat(2), utime(2) *)
(* ===================================================================== *)

Module FS.

(** A name in the file system: the list of its components below the
    root. *)
Abbreviation path := (list string).

(** A directory with its access and modification times, or a regular
    file with its inode number and bytes: two names of one inode are
    hard links of each other. *)
Inductive node :=
| Dir (atime mtime : Z)
| File (ino : N) (data : string).

(** The file system as the process has it, with its working
    directory and the home directory of its user. *)
Record fs := mkFs {
  tree : gmap path node;
  device : path -> N;     (* the file system a name lives on *)
  clock : Z;              (* the time stamp given to new directories *)
  next_ino : N;           (* the inode number given to the next new file *)
  cwd : path;             (* the working directory *)
  home : path             (* the directories of [Poco::Path::home()] *)
}.

Definition set_tree (t : gmap path node) (F : fs) : fs :=
  mkFs t (device F) (clock F) (next_ino F) (cwd F) (home F).

Fixpoint split (sep : ascii) (s : string) (cur : string) : list string :=
  match s with
  | EmptyString => [cur]
  | String c rest =>
      if Ascii.eqb c sep then cur :: split sep rest EmptyString
      else split sep rest (Str.push_back cur c)
  end.

(** The names in a file name as [nftw] and [strcmp] have it: the
    non-empty pieces between slashes. *)
Definition components (s : string) : path :=
  List.filter (fun c => negb (Str.is_empty c)) (split "/"%char s EmptyString).

(** The directory a name is in. *)
Definition parent (p : path) : path := removelast p.

(** [Poco::File::exists], that is [stat(2)] succeeding. *)
Definition exists_ (p : path) (F : fs) : bool :=
  match p with
  | [] => true
  | _ => match tree F !! p with Some _ => true | None => false end
  end.

Definition is_dir (p : path) (F : fs) : bool :=
  match p with
  | [] => true
  | _ => match tree F !! p with Some (Dir _ _) => true | _ => false end
  end.

Definition file_data (p : path) (F : fs) : option string :=
  match tree F !! p with Some (File _ data) => Some data | _ => None end.


(** [mkdir(2)]: the name must be free and its parent a directory. *)
Definition mkdir (p : path) (F : fs) : option fs :=
  if (negb (exists_ p F) && is_dir (parent p) F)%bool
  then Some (set_tree (<[p := Dir (clock F) (clock F)]> (tree F)) F)
  else None.

(** [Poco::File::createDirectories]: nothing is done for a name that
    exists; otherwise the missing ancestors are made first, then the
    directory.  The boolean is false for the exception of a failed
    mkdir; the directories made before it stay. *)
Fixpoint mkdirs (above : path) (below : list string) (F : fs) : bool * fs :=
  match below with
  | [] => (true, F)
  | c :: below' =>
      let p := above ++ [c] in
      if exists_ p F then mkdirs p below' F
      else match mkdir p F with
           | Some F' => mkdirs p below' F'
           | None => (false, F)
           end
  end.

Definition createDirectories (p : path) (F : fs) : bool * fs :=
  if exists_ p F then (true, F) else mkdirs [] p F.

(** [link(2)]: the source is a regular file, the new name is free, its
    parent is a directory, and both are on one file system. *)
Definition link (src dst : path) (F : fs) : option fs :=
  match tree F !! src with
  | Some (File ino data) =>
      if (negb (exists_ dst F) && is_dir (parent dst) F
          && N.eqb (device F src) (device F dst))%bool
      then Some (set_tree (<[dst := File ino data]> (tree F)) F)
      else None
  | _ => None
  end.

(** [stat(2)], for [st_atime] and [st_mtime]; the times of regular
    files are not kept and read as 0. *)
Definition stat_times (p : path) (F : fs) : option (Z * Z) :=
  match tree F !! p with
  | Some (Dir a m) => Some (a, m)
  | Some (File _ _) => Some (0, 0)
  | None => None
  end.

(** [utime(2)]. *)
Definition utime (p : path) (times : Z * Z) (F : fs) : option fs :=
  match tree F !! p with
  | Some (Dir _ _) => Some (set_tree (<[p := Dir (fst times) (snd times)]> (tree F)) F)
  | Some (File _ _) => Some F
  | None => None
  end.

(** Every name other than the root has a directory as parent. *)
Definition well_formed (F : fs) : Prop :=
  forall p n, tree F !! p = Some n -> is_dir (parent p) F = true.

(** *** Poco::Path and Poco::File *)

(** A [Poco::Path]: [_absolute], [_device], [_dirs] and [_name]. *)
Record Path := mkPath {
  absolute : bool;
  drive : string;
  dirs : list string;
  name : string
}.

Definition set_dirs (d : list string) (P : Path) : Path :=
  mkPath (absolute P) (drive P) d (name P).

Definition set_name (n : string) (P : Path) : Path :=
  mkPath (absolute P) (drive P) (dirs P) n.

(** [Poco::Path::pushDirectory]: an empty name and [.] are dropped;
    [..] takes the last directory off, or is kept by a relative path
    that has nothing to take off. *)
Definition pushDirectory (dir : string) (P : Path) : Path :=
  if (Str.is_empty dir || String.eqb dir ".")%bool then P
  else if String.eqb dir ".." then
    match last (dirs P) with
    | Some d =>
        if String.eqb d ".."
        then (if absolute P then P else set_dirs (dirs P ++ [dir]) P)
        else set_dirs (removelast (dirs P)) P
    | None => if absolute P then P else set_dirs (dirs P ++ [dir]) P
    end
  else set_dirs (dirs P ++ [dir]) P.

Definition ends_with_colon (s : string) : bool :=
  match last (list_ascii_of_string s) with
  | Some c => Ascii.eqb c ":"%char
  | None => false
  end.

Definition without_last (s : string) : string :=
  string_of_list_ascii (removelast (list_ascii_of_string s)).

(** The loop of [Poco::Path::parseUnix] over the pieces between the
    slashes: the last piece is the name, the pieces before it are
    directories; a first directory that ends in a colon is taken as
    the device and makes the path absolute. *)
Fixpoint parse_pieces (pieces : list string) (P : Path) : Path :=
  match pieces with
  | [] => P
  | piece :: rest =>
      match rest with
      | [] => set_name piece P
      | _ :: _ =>
          parse_pieces rest
            (match dirs P with
             | [] =>
                 if ends_with_colon piece
                 then mkPath true (without_last piece) (dirs P) (name P)
                 else pushDirectory piece P
             | _ :: _ => pushDirectory piece P
             end)
      end
  end.

(** [Poco::Path(s)], that is [parseUnix]: a slash in front makes the
    path absolute, [~] alone or before a slash stands for the home
    directory. *)
Definition parsePath (home : list string) (s : string) : Path :=
  match s with
  | EmptyString => mkPath false EmptyString [] EmptyString
  | String c rest =>
      if Ascii.eqb c "/"%char
      then parse_pieces (split "/"%char rest EmptyString)
                        (mkPath true EmptyString [] EmptyString)
      else
        if (Ascii.eqb c "~"%char
            && match rest with
               | EmptyString => true
               | String c' _ => Ascii.eqb c' "/"%char
               end)%bool
        then parse_pieces (split "/"%char rest EmptyString)
                          (mkPath true EmptyString home EmptyString)
        else parse_pieces (split "/"%char s EmptyString)
                          (mkPath false EmptyString [] EmptyString)
  end.

(** [Poco::Path::makeParent], as [parent()] applies it to a copy. *)
Definition makeParent (P : Path) : Path :=
  if Str.is_empty (name P) then
    match last (dirs P) with
    | None => if absolute P then P else set_dirs [".."%string] P
    | Some d =>
        if String.eqb d ".." then set_dirs (dirs P ++ [".."%string]) P
        else set_dirs (removelast (dirs P)) P
    end
  else set_name EmptyString P.

(** [toString()] is the empty string: on it the functions of
    [Poco::File] fail their assertion, a [Poco::Exception]. *)
Definition no_name_at_all (P : Path) : bool :=
  (negb (absolute P) && Str.is_empty (drive P)
   && match dirs P with [] => true | _ :: _ => false end
   && Str.is_empty (name P))%bool.

(** The name is one that can be made: not empty, not [.] or [..]. *)
Definition plain (P : Path) : bool :=
  negb (Str.is_empty (name P) || String.eqb (name P) "."
        || String.eqb (name P) "..")%bool.

(** The last name of [toString()] with a slash at its end taken off,
    which is what [Path(File(P).path()).getFileName()] gives. *)
Definition fileName (P : Path) : string :=
  if Str.is_empty (name P) then
    match last (dirs P) with
    | Some d => d
    | None => if Str.is_empty (drive P) then EmptyString
              else (drive P ++ ":")%string
    end
  else name P.

(** Where the operating system starts to look a path up: at the
    directory of the device, at the root, or at the working
    directory. *)
Definition origin (P : Path) (F : fs) : path :=
  if negb (Str.is_empty (drive P)) then [(drive P ++ ":")%string]
  else if absolute P then [] else cwd F.

(** The look-up goes down one name at a time and up at [..]. *)
Definition step (at_ : path) (n : string) : path :=
  if String.eqb n ".." then parent at_ else at_ ++ [n].

(** The directory the directories of the path lead to. *)
Definition base (P : Path) (F : fs) : path :=
  fold_left step (dirs P) (origin P F).

(** The name [stat(2)] finds for [File(P)], whose constructor takes a
    slash at the end off; none when [.] or [..] is looked up in what is
    not a directory. *)
Definition target (P : Path) (F : fs) : option path :=
  let b := base P F in
  if String.eqb (name P) "." then (if is_dir b F then Some b else None)
  else if String.eqb (name P) ".." then (if is_dir b F then Some (parent b) else None)
  else if Str.is_empty (name P) then Some b
  else Some (b ++ [name P]).

(** [File(P).exists()]; [None] for the exception of the assertion. *)
Definition File_exists (P : Path) (F : fs) : option bool :=
  if no_name_at_all P then None
  else Some match target P F with
            | Some p => exists_ p F
            | None => false
            end.

(** The path with its name, when it has one, as the last
    directory. *)
Definition full (P : Path) (F : fs) : path :=
  base P F ++ (if Str.is_empty (name P) then [] else [name P]).

(** [File(P).createDirectories()]: nothing is done for a name that
    exists; otherwise the missing directories are made from the top,
    below the place the look-up starts at, which has to be there
    unless it is itself the directory to make.  The boolean is false
    for an exception. *)
Definition File_createDirectories (P : Path) (F : fs) : bool * fs :=
  match File_exists P F with
  | None => (false, F)
  | Some true => (true, F)
  | Some false =>
      if (String.eqb (name P) "." || String.eqb (name P) "..")%bool then (false, F)
      else
        match dirs P, Str.is_empty (name P) with
        | [], true => mkdirs [] (full P F) F
        | _, _ =>
            if is_dir (origin P F) F then mkdirs [] (full P F) F else (false, F)
        end
  end.

(** [link(2)] on the two strings: only names that can be made are
    linked. *)
Definition linkNames (S D : Path) (F : fs) : option fs :=
  if (plain S && plain D)%bool
  then link (base S F ++ [name S]) (base D F ++ [name D]) F
  else None.

(** [write(2)] through a name of inode [ino]: all its names have the
    new bytes. *)
Definition write (ino : N) (data : string) (F : fs) : fs :=
  set_tree ((fun n => match n with
                      | File i d => if N.eqb i ino then File i data else n
                      | Dir _ _ => n
                      end) <$> tree F) F.

(** [p] with [s] taken off its front; [None] when [p] is not at or
    below [s]. *)
Fixpoint strip (s p : path) : option path :=
  match s with
  | [] => Some p
  | c :: s' =>
      match p with
      | [] => None
      | d :: p' => if String.eqb c d then strip s' p' else None
      end
  end.

Definition is_prefix (s p : path) : bool :=
  match strip s p with
  | Some _ => true
  | None => false
  end.

(** One entry of a directory that is copied: an entry below [s] goes
    to the same place below [t], a directory as a new directory, a
    regular file as a new inode with the same bytes. *)
Definition copy_entry (now : Z) (s t : path) (p : path) (n : node)
           (acc : gmap path node * N) : gmap path node * N :=
  match strip s p with
  | Some (c :: rel) =>
      match n with
      | Dir _ _ => (<[t ++ c :: rel := Dir now now]> (fst acc), snd acc)
      | File _ data =>
          (<[t ++ c :: rel := File (snd acc) data]> (fst acc), N.succ (snd acc))
      end
  | _ => acc
  end.

(** [File::copyDirectory] into the directory [t], which is there:
    everything below [s] is copied.  Names that are below [t] already
    are left as they are here: the handler copies to a destination
    that does not exist. *)
Definition copy_below (s t : path) (F : fs) : fs :=
  let r := map_fold (copy_entry (clock F) s t) (∅, next_ino F) (tree F) in
  mkFs (tree F ∪ fst r) (device F) (clock F) (snd r) (cwd F) (home F).

(** [File(S).copyTo(D.toString())].  A destination that is a
    directory, or is written with a slash at its end, stands for the
    entry of the source's name in it.  A regular file is copied by
    [open(O_CREAT | O_TRUNC)] and [write]; a directory is copied by
    [copyDirectory], which makes the destination with
    [createDirectories] first.  A destination at or below the
    directory it is a copy of makes the copy go down into itself until
    a name is too long: of that the exception is kept here, not the
    directories made on the way.  The boolean is false for an
    exception. *)
Definition copyTo (S D : Path) (F : fs) : bool * fs :=
  match File_exists D F with
  | None => (false, F)
  | Some there =>
      let into :=
        ((there && match target D F with
                   | Some p => is_dir p F
                   | None => false
                   end) || Str.is_empty (name D))%bool in
      let D' := if into then set_name (fileName S) D else D in
      let t := base D' F ++ [name D'] in
      if (negb (plain D') || no_name_at_all S)%bool then (false, F)
      else
        match target S F with
        | None => (false, F)
        | Some s =>
            match (match s with [] => Some (Dir 0 0) | _ :: _ => tree F !! s end) with
            | None => (false, F)
            | Some (File _ data) =>
                if is_dir (base D' F) F then
                  match tree F !! t with
                  | Some (Dir _ _) => (false, F)
                  | Some (File ino _) => (true, write ino data F)
                  | None =>
                      (true, mkFs (<[t := File (next_ino F) data]> (tree F))
                                  (device F) (clock F) (N.succ (next_ino F))
                                  (cwd F) (home F))
                  end
                else (false, F)
            | Some (Dir _ _) =>
                match File_createDirectories D' F with
                | (false, F1) => (false, F1)
                | (true, F1) =>
                    if is_prefix s t then (false, F1)
                    else (true, copy_below s t F1)
                end
            end
        end
  end.

End FS.

(* ===================================================================== *)
(** ** The jail builder: linkOrCopyFunction and linkOrCopy *)
(* ===================================================================== *)

Module Jail.
Import FS.

(** The type flags [nftw] hands to its callback. *)
Inductive typeflag := FTW_F | FTW_D | FTW_DNR | FTW_NS | FTW_SL | FTW_DP | FTW_SLN.

(** How a call of the callback, and the walk, can end: it returns a
    value, the process ends in [exit], an [assert] fails, or a Poco
    exception leaves the callback. *)
Inductive result :=
| Return (value : Z) (F : fs)
| ProcessExit (code : Z) (F : fs)
| AssertionFailed (F : fs)
| Exception (F : fs).

(** [fpath] with the source and the slash after it taken off; [None]
    when [fpath] does not start with the source. *)
Fixpoint relative (source fpath : path) : option path :=
  match source with
  | [] => Some fpath
  | c :: source' =>
      match fpath with
      | [] => None
      | d :: fpath' => if String.eqb c d then relative source' fpath' else None
      end
  end.

Definition path_eqb (p q : path) : bool :=
  match relative p q with
  | Some [] => true
  | _ => false
  end.

Section Walk.

(** [__APPLE__]. *)
Variable apple : bool.

(** [sourceForLinkOrCopy] and [destinationForLinkOrCopy]. *)
Variable sourceForLinkOrCopy : path.
Variable destinationForLinkOrCopy : path.

(** Lines 653-722. *)
Definition linkOrCopyFunction (fpath : path) (flag : typeflag) (F : fs) : result :=
  if path_eqb sourceForLinkOrCopy fpath then Return 0 F
  else
    match relative sourceForLinkOrCopy fpath with
    | None | Some [] => AssertionFailed F
    | Some relativeOldPath =>
        if (apple && path_eqb relativeOldPath ["PkgInfo"%string])%bool
        then Return 0 F
        else
          let newPath := destinationForLinkOrCopy ++ relativeOldPath in
          match flag with
          | FTW_F =>
              match createDirectories (parent newPath) F with
              | (false, F1) => Exception F1
              | (true, F1) =>
                  match link fpath newPath F1 with
                  | None => ProcessExit 1 F1
                  | Some F2 => Return 0 F2
                  end
              end
          | FTW_DP =>
              match stat_times fpath F with
              | None => Return 1 F
              | Some st =>
                  match createDirectories newPath F with
                  | (false, F1) => Exception F1
                  | (true, F1) =>
                      match utime newPath st F1 with
                      | None => Return 1 F1
                      | Some F2 => Return 0 F2
                      end
                  end
              end
          | FTW_DNR => Return 1 F
          | FTW_NS => Return 1 F
          | FTW_SLN => Return 0 F
          | FTW_D | FTW_SL => AssertionFailed F
          end
    end.

(** [nftw(source, fn, 10, FTW_DEPTH)] over the entries it visits, in
    their order: the walk stops at the first call that does not return
    0 and returns that value.  When every call returned 0 the walk
    ends either with the tree done, returning 0, or with a failure of
    [nftw] itself ([fails]: the source cannot be looked up, no memory,
    no file descriptor), returning -1; the entries are those visited
    until then, none when the source cannot be looked up. *)
Fixpoint nftw (fails : bool) (entries : list (path * typeflag)) (F : fs) : result :=
  match entries with
  | [] => Return (if fails then -1 else 0) F
  | (fpath, flag) :: entries' =>
      match linkOrCopyFunction fpath flag F with
      | Return 0 F' => nftw fails entries' F'
      | r => r
      end
  end.

End Walk.

(** Lines 724-733: a slash at the end of the source is dropped (as
    [components] does for any empty piece) before the walk; the
    function returns nothing, the value of the walk is kept here for
    the test of line 730. *)
Definition linkOrCopy (apple : bool) (source : string) (destination : path)
           (fails : bool) (entries : list (path * typeflag)) (F : fs) : result :=
  nftw apple (components source) destination fails entries F.


End Jail.

(* ===================================================================== *)
(** ** FileTransferHandler::transferFile *)
(* ===================================================================== *)

Module FileTransfer.
Import FS.

(** The three kinds of reply: "OK", the text asking for source and
    destination, and the text of a caught exception. *)
Inductive reply :=
| OK
| SourceAndDestinationNeeded (command : string)
| ExceptionText.

Section Platform.

(** [__linux]. *)
Variable linux : bool.

(** Lines 448-492. *)
Definition transferFile (command : string) (F : fs) : reply * fs :=
  match LOOLProtocol.StringTokenizer command " " with
  | [t0; t1] =>
      let aSrcFile := parsePath (home F) t0 in
      let aDstFile := parsePath (home F) t1 in
      let aDstPath := makeParent aDstFile in
      match File_createDirectories aDstPath F with
      | (false, F1) => (ExceptionText, F1)
      | (true, F1) =>
          let F2 :=
            if linux then
              match linkNames aSrcFile aDstFile F1 with
              | Some F' => F'
              | None => F1
              end
            else F1 in
          match File_exists aDstFile F2 with
          | None => (ExceptionText, F2)
          | Some true => (OK, F2)
          | Some false =>
              match copyTo aSrcFile aDstFile F2 with
              | (true, F3) => (OK, F3)
              | (false, F3) => (ExceptionText, F3)
              end
          end
      end
  | _ => (SourceAndDestinationNeeded command, F)
  end.

End Platform.

End FileTransfer.

(* ===================================================================== *)
(** ** The supervisor: child ids, createComponent, the reaper loop *)
(* ===================================================================== *)

Module Supervisor.

Definition EXIT_OK : Z := 0.
Definition EXIT_UNAVAILABLE : Z := 69.

(** A conversion to [Poco::UInt64]. *)
Definition UInt64 (z : Z) : Z := z mod 2 ^ 64.

(** [(((Poco::UInt64)_rng.next()) << 32) | _rng.next() | 1] (lines 937
    and 1107), for the two [UInt32] values the generator returns. *)
Definition newChildId (first second : Z) : Z :=
  Z.lor (Z.lor (UInt64 (Z.shiftl first 32)) second) 1.

(** The memory of one loolwsd process, as far as the supervisor goes:
    [_childId], [MasterProcessSession::_childProcesses], the number
    of pending pre-spawned children, the number of available child
    sessions, and what was written to [std::cout]. *)
Record Process := mkProcess {
  childId : Z;
  childProcesses : gmap Z Z;
  pendingPreSpawned : nat;
  availableChildSessions : nat;
  cout : list string
}.

Definition set_childId (id : Z) (P : Process) : Process :=
  mkProcess id (childProcesses P) (pendingPreSpawned P)
            (availableChildSessions P) (cout P).

Definition print (line : string) (P : Process) : Process :=
  mkProcess (childId P) (childProcesses P) (pendingPreSpawned P)
            (availableChildSessions P) (cout P ++ [line]).

(** Modelled from the spec: [MasterProcessSession::addPendingChildrem]
    is defined in LOOLSession.cpp, which is not among the sources; the
    spec's [pendingPreSpawned] is the count of children forked but not
    yet connected, so a forked child adds one to it. *)
Definition addPendingChildrem (pid : Z) (P : Process) : Process :=
  mkProcess (childId P) (childProcesses P) (S (pendingPreSpawned P))
            (availableChildSessions P) (cout P).

(** [_childProcesses[pid] = pid]. *)
Definition record_child (pid : Z) (P : Process) : Process :=
  mkProcess (childId P) (<[pid := pid]> (childProcesses P))
            (pendingPreSpawned P) (availableChildSessions P) (cout P).

(** The first lines of [loolMain] and of [desktopMain]. *)
Definition draw_childId (first second : Z) (P : Process) : Process :=
  set_childId (newChildId first second) P.

(** What [fork] returns in the calling process. *)
Inductive forked := ForkFailed | InParent (pid : Z).

(** [createComponent] in the calling process (lines 903-922). *)
Definition createComponent (P : Process) (f : forked) : Z * Process :=
  match f with
  | ForkFailed => (EXIT_UNAVAILABLE, print "Fork failed." P)
  | InParent pid => (EXIT_OK, record_child pid (addPendingChildrem pid P))
  end.

(** [createDesktop] in the calling process (lines 1074-1092). *)
Definition createDesktop (P : Process) (f : forked) : Z * Process :=
  match f with
  | ForkFailed => (EXIT_UNAVAILABLE, print "createDesktop fork failed." P)
  | InParent pid => (EXIT_OK, record_child pid P)
  end.

(** The new process of a successful [fork] starts from a copy of the
    memory of its parent: a component runs [componentMain] with it, a
    desktop runs [desktopMain], which first draws its own id. *)
Definition component_image (parent : Process) : Process := parent.

Definition desktop_image (parent : Process) (first second : Z) : Process :=
  draw_childId first second parent.

(** The id a component announces, ["child " + std::to_string(_childId)]
    (line 846). *)
Definition announced_id (P : Process) : Z := childId P.

(** What [waitpid(-1, &status, WUNTRACED | WNOHANG)] gives: the
    returned pid, the status word, and whether [errno] is [ECHILD]. *)
Record waited := mkWaited {
  w_pid : Z;
  w_status : Z;
  w_echild : bool
}.

(** The status macros of [<sys/wait.h>]. *)
Definition WTERMSIG (status : Z) : Z := Z.land status 127.
Definition WIFEXITED (status : Z) : bool := WTERMSIG status =? 0.
Definition WIFSIGNALED (status : Z) : bool :=
  ((1 <=? WTERMSIG status) && (WTERMSIG status <=? 126))%bool.

(** Lines 1051-1052. *)
Definition known_child_died (P : Process) (w : waited) : bool :=
  ((WIFEXITED (w_status w) || WIFSIGNALED (w_status w)
    || negb (WTERMSIG (w_status w) =? 0))
   && match childProcesses P !! w_pid w with Some _ => true | None => false end)%bool.

(** The body of the loop of [desktopMain] (lines 1037-1060); the
    boolean is false when the body ends in [break]. *)
Definition reaper_iteration (P : Process) (w : waited) (f : forked) : bool * Process :=
  let P1 :=
    if ((w_pid w <? 0) && w_echild w)%bool
    then print "No child processes even if we think there should be some!?" P
    else P in
  let P2 :=
    if known_child_died P1 w
    then print "One of our known child processes died" P1
    else P1 in
  if (Nat.eqb (availableChildSessions P2) 0 && Nat.eqb (pendingPreSpawned P2) 0)%bool
  then
    let (r, P3) := createComponent (print "No availabe child session, fork new one" P2) f in
    if r <? 0 then (false, P3) else (true, P3)
  else (true, P2).

(** The loop of lines 1035-1061 over what [waitpid] and [fork] give
    at each turn; it is left when the child table is empty, at a
    [break], or here when the list is used up. *)
Fixpoint reaperLoop (env : list (waited * forked)) (P : Process) : Process :=
  match env with
  | [] => P
  | (w, f) :: env' =>
      if 0 <? Z.of_nat (size (childProcesses P)) then
        let (again, P') := reaper_iteration P w f in
        if again then reaperLoop env' P' else P'
      else P
  end.

(** [startupComponent] (lines 924-931) over what [fork] gives at each
    turn, one turn for each of the [nComponents] children asked for;
    the loop is left early when [createComponent] returns a negative
    value. *)
Fixpoint startupComponent (forks : list forked) (P : Process) : Process :=
  match forks with
  | [] => P
  | f :: forks' =>
      let (r, P') := createComponent P f in
      if r <? 0 then P' else startupComponent forks' P'
  end.

(** [startupDesktop] (lines 1094-1101), likewise. *)
Fixpoint startupDesktop (forks : list forked) (P : Process) : Process :=
  match forks with
  | [] => P
  | f :: forks' =>
      let (r, P') := createDesktop P f in
      if r <? 0 then P' else startupDesktop forks' P'
  end.

End Supervisor.

(* ===================================================================== *)
(** ** Vocabulary of the properties *)
(* ===================================================================== *)

(** The first token of a line, as [tokens[0]] of its tokenizer. *)
Definition first_token (x : string) : option string :=
  head (LOOLProtocol.StringTokenizer x " ").

(** The stack of the examples: 8 MiB for the thread of a handler. *)
Definition example_stack : Z := 8388608.

(** The frame consists of one line: [firstLine.size() == n]. *)
Definition single_line (frame : string) : bool :=
  Str.size (LOOLProtocol.getFirstLine frame) =? Str.size frame.

(** The frame fits the buffer of [capacity] bytes and passes the test
    of the loop body: it is not empty and not a close frame. *)
Definition arrives (capacity flags : Z) (frame : string) : bool :=
  ((Str.size frame <=? capacity)
   && WebSocket.data_frame (Str.size frame) flags)%bool.

Definition tokens_of (frame : string) : list string :=
  LOOLProtocol.StringTokenizer (LOOLProtocol.getFirstLine frame) " ".

(** A "canceltiles" frame as the fast path of a ToClient session takes
    it (lines 232 and 236). *)
Definition canceltiles_frame (flags : Z) (frame : string) : bool :=
  (arrives 100000 flags frame && single_line frame
   && Master.is_canceltiles (tokens_of frame))%bool.

(** The condition under which the specification has "canceltiles" drop
    a queued element: its first token is [tile] and its first line has
    no [id=]. *)
Definition spec_prunable (x : string) : bool :=
  (match first_token x with
   | Some t => String.eqb t "tile"
   | None => false
   end
   && match Str.find "id=" (LOOLProtocol.getFirstLine x) with
      | None => true
      | Some _ => false
      end)%bool.

(** What ends the receive loop at a call of [receiveFrame]: the call
    throws, or the frame is empty or a close frame. *)
Definition closes (w : WebSocket.wire) : bool :=
  match w with
  | WebSocket.Throws _ => true
  | WebSocket.Frame flags payload =>
      negb (WebSocket.data_frame (Str.size payload) flags)
  end.

(** What the channel delivers asks for no buffer that the stack has
    no room for: it is no "nextmessage: size=N" frame with N above
    [stack]. *)
Definition fits (stack : Z) (w : WebSocket.wire) : bool :=
  match w with
  | WebSocket.Throws _ => true
  | WebSocket.Frame _ payload =>
      match Master.nextmessage (tokens_of payload) with
      | Some size => size <=? stack
      | None => true
      end
  end.

(** The receiver is inside its loop, at one of the two calls of
    [receiveFrame]. *)
Definition receiving (W : Master.World) : Prop :=
  match Master.receiver W with
  | Master.AtReceive | Master.AtReceiveLarge _ => True
  | Master.AtPutEof | Master.AtJoin | Master.Killed => False
  end.

(** What holds of the queue once the receiver has left its loop, in
    every interleaving of the two threads. *)
Definition after_loop (W : Master.World) : Prop :=
  match Master.receiver W with
  | Master.AtPutEof => Master.queue W = []
  | Master.AtJoin =>
      Master.queue W = ["eof"%string]
      \/ (Master.queue W = [] /\ Master.consumer W = Master.Exited)
  | Master.AtReceive | Master.AtReceiveLarge _ | Master.Killed => True
  end.

(** The file systems of the examples: a template /sys with one library
    and a directory /jail, together with /srv/new.odt and /pub/doc.odt
    of different contents; in [two_devices] /jail is on a file system
    of its own, in [one_device] everything is on one. *)
Definition example_tree : gmap (list string) FS.node :=
  <[ ["sys"; "libc.so"]%string := FS.File 7 "ELF" ]>
    (<[ ["sys"]%string := FS.Dir 10 10 ]>
       (<[ ["jail"]%string := FS.Dir 20 20 ]>
          (<[ ["srv"; "new.odt"]%string := FS.File 5 "new" ]>
             (<[ ["srv"]%string := FS.Dir 30 30 ]>
                (<[ ["pub"; "doc.odt"]%string := FS.File 6 "old" ]>
                   (<[ ["pub"]%string := FS.Dir 40 40 ]> ∅)))))).

Definition two_devices : FS.fs :=
  FS.mkFs example_tree
    (fun p => match p with
              | c :: _ => if String.eqb c "jail" then 2%N else 1%N
              | [] => 1%N
              end)
    100 8 ["srv"%string] ["srv"%string].

Definition one_device : FS.fs :=
  FS.mkFs example_tree (fun _ => 1%N) 100 8 ["srv"%string] ["srv"%string].

(** A frame of a ToClient session that is put on the work queue: it
    arrives, is one line, and is not "canceltiles". *)
Definition ordinary_line (flags : Z) (frame : string) : bool :=
  (arrives 100000 flags frame && single_line frame
   && negb (Master.is_canceltiles (tokens_of frame)))%bool.

(** The frames of a script, as the channel delivers them. *)
Definition frames (l : list (Z * string)) : list WebSocket.wire :=
  List.map (fun f => WebSocket.Frame (fst f) (snd f)) l.

(** A line of at most [capacity] bytes: no line feed in it. *)
Definition is_line (capacity : Z) (x : string) : Prop :=
  ~ In LOOLProtocol.LF (list_ascii_of_string x) /\ Str.size x <= capacity.

(** The file system a call of the jail builder ends with. *)
Definition result_fs (r : Jail.result) : FS.fs :=
  match r with
  | Jail.Return _ F | Jail.ProcessExit _ F
  | Jail.AssertionFailed F | Jail.Exception F => F
  end.

(** The forks that gave a child. *)
Definition is_child (f : Supervisor.forked) : bool :=
  match f with
  | Supervisor.InParent _ => true
  | Supervisor.ForkFailed => false
  end.

(** [handleInput] takes every element of [q] in turn, after [seen]. *)
Fixpoint accepts_all (handleInput : list string -> string -> bool)
         (seen : list string) (q : list string) : Prop :=
  match q with
  | [] => True
  | x :: q' =>
      handleInput seen x = true /\ accepts_all handleInput (seen ++ [x]) q'
  end.

(** Every name of [F] is still there in [F']: a regular file with its
    inode and bytes, a directory possibly with other times. *)
Definition keeps (F F' : FS.fs) : Prop :=
  forall p n,
    FS.tree F !! p = Some n ->
    match n with
    | FS.File ino data => FS.tree F' !! p = Some (FS.File ino data)
    | FS.Dir _ _ => exists a m, FS.tree F' !! p = Some (FS.Dir a m)
    end.

(** What can be seen at a name: nothing, a directory, or a regular
    file with its bytes. *)
Definition contents (n : option FS.node) : option (option string) :=
  match n with
  | None => None
  | Some (FS.Dir _ _) => Some None
  | Some (FS.File _ data) => Some (Some data)
  end.

(** [d] has the same contents as [s]: both are directories or both are
    regular files of the same bytes, and so it is at every name below
    them. *)
Definition same_contents (s d : list string) (F : FS.fs) : Prop :=
  forall rel, contents (FS.tree F !! (s ++ rel)) = contents (FS.tree F !! (d ++ rel)).

(** Where the file-transfer handler links or copies the source [S]
    to: the destination [D], or the entry of the source's name in it
    when [D] is written with a slash at its end. *)
Definition place (S D : FS.Path) (F : FS.fs) : list string :=
  FS.base D F ++ [if Str.is_empty (FS.name D) then FS.fileName S else FS.name D].

(* ===================================================================== *)
(** * Properties *)
(* ===================================================================== *)

(** ** Strings, tokens and the queue *)

Example tokens_tile :
  LOOLProtocol.StringTokenizer "tile part=0  x=0 id=7 " " "
  = ["tile"; "part=0"; "x=0"; "id=7"]%string.
Proof. reflexivity. Qed.

Example first_line_two :
  LOOLProtocol.getFirstLine (String "a" (String LOOLProtocol.LF "b")) = "a"%string.
Proof. reflexivity. Qed.

Example token_size : LOOLProtocol.getTokenInteger "size=123456" "size" = Some 123456.
Proof. reflexivity. Qed.

Example nextmessage_line :
  Master.nextmessage (LOOLProtocol.StringTokenizer "nextmessage: size=123456" " ")
  = Some 123456.
Proof. reflexivity. Qed.

Lemma remove_if_filter (p : string -> bool) (q : tsqueue.t) :
  tsqueue.remove_if p q = List.filter (fun x => negb (p x)) q.
Proof.
  induction q as [|x q IH]; simpl; [reflexivity|].
  destruct (p x); simpl; congruence.
Qed.

Lemma remove_if_In (p : string -> bool) (q : tsqueue.t) (x : string) :
  In x (tsqueue.remove_if p q) <-> In x q /\ p x = false.
Proof.
  rewrite remove_if_filter, filter_In.
  destruct (p x); simpl; intuition congruence.
Qed.

Lemma remove_if_sublist (p : string -> bool) (q : tsqueue.t) :
  sublist (tsqueue.remove_if p q) q.
Proof.
  induction q as [|x q IH]; simpl; [constructor|].
  destruct (p x); [apply sublist_cons | apply sublist_skip]; assumption.
Qed.

Lemma find_at_0 (needle hay : string) :
  Str.find needle hay = Some 0%nat <-> String.prefix needle hay = true.
Proof.
  destruct hay as [|c hay]; simpl.
  - destruct needle; simpl; split; congruence.
  - destruct needle as [|a needle]; simpl; [tauto|].
    destruct (ascii_dec a c); [|].
    + destruct (String.prefix needle hay); [tauto|].
      destruct (Str.find (String a needle) hay); simpl; split; congruence.
    + destruct (Str.find (String a needle) hay); simpl; split; congruence.
Qed.

Lemma cancellable_spec (x : string) :
  Master.cancellable x = true
  <-> String.prefix "tile " x = true /\ Str.find "id=" x = None.
Proof.
  unfold Master.cancellable. rewrite <- find_at_0.
  destruct (Str.find "tile " x) as [[|n]|]; destruct (Str.find "id=" x);
    simpl; intuition congruence.
Qed.

Lemma prefix_cons (a b : ascii) (s1 s2 : string) :
  String.prefix (String a s1) (String b s2) = true
  <-> a = b /\ String.prefix s1 s2 = true.
Proof.
  cbn [String.prefix].
  destruct (ascii_dec a b); intuition congruence.
Qed.

Lemma prefix_nil (a : ascii) (s1 : string) :
  String.prefix (String a s1) EmptyString = false.
Proof. destruct s1; reflexivity. Qed.

Lemma tile_prefix_shape (x : string) :
  String.prefix "tile " x = true ->
  exists rest, x = String "t" (String "i" (String "l" (String "e" (String " " rest)))).
Proof.
  intros H.
  repeat match type of H with
         | String.prefix (String _ _) ?y = true =>
             destruct y; [rewrite prefix_nil in H; discriminate|];
             apply prefix_cons in H; destruct H as [<- H]
         end.
  eexists; reflexivity.
Qed.

Lemma tile_prefix_first_token (x : string) :
  String.prefix "tile " x = true -> first_token x = Some "tile"%string.
Proof.
  intros H. apply tile_prefix_shape in H. destruct H as [rest ->].
  reflexivity.
Qed.

(** ** The receiver of the master *)

Section MasterFacts.
Import WebSocket Master.

Variable handleInput : list string -> string -> bool.
Variable stack : Z.

Lemma receiver_step_at_receive kind W flags frame :
  receiver W = AtReceive ->
  arrives 100000 flags frame = true ->
  receiver_step handleInput stack kind W (Frame flags frame) =
  if (Kind_eqb kind ToClient && single_line frame)%bool then
    if is_canceltiles (tokens_of frame) then
      snd (handle handleInput
             (set_queue (tsqueue.remove_if cancellable (queue W)) W) frame)
    else set_queue (tsqueue.put (LOOLProtocol.getFirstLine frame) (queue W)) W
  else
    match nextmessage (tokens_of frame) with
    | Some size => largeBuffer stack size W
    | None =>
        let (ok, W1) := handle handleInput W frame in
        if ok then W1 else clear_queue W1
    end.
Proof.
  intros Hpc Harr. unfold arrives in Harr.
  apply andb_true_iff in Harr. destruct Harr as [Hfit Hdata].
  unfold receiver_step. rewrite Hpc. unfold receiveFrame.
  rewrite Hfit, Hdata. reflexivity.
Qed.


(** C1, as the code has it: on a ToClient session a "canceltiles"
    frame leaves in the work queue exactly the elements that do not
    begin with the five characters [tile ] or that contain [id=], in
    their order; the elements dropped are those that begin with
    [tile ] and contain no [id=].  Every element that contains [id=]
    and every element whose first token is not [tile] stays. *)
Theorem canceltiles_prunes_tile_prefix W flags frame :
  receiver W = AtReceive ->
  canceltiles_frame flags frame = true ->
  let W' := receiver_step handleInput stack ToClient W (Frame flags frame) in
  queue W' = List.filter (fun x => negb (cancellable x)) (queue W)
  /\ (forall x, cancellable x = true
                <-> String.prefix "tile " x = true /\ Str.find "id=" x = None)
  /\ (forall x, In x (queue W) -> Str.find "id=" x <> None -> In x (queue W'))
  /\ (forall x, In x (queue W) -> first_token x <> Some "tile"%string ->
                In x (queue W'))
  /\ sublist (queue W') (queue W).
Proof.
  intros Hpc Hf W'. unfold canceltiles_frame in Hf.
  apply andb_true_iff in Hf. destruct Hf as [Hf Hcancel].
  apply andb_true_iff in Hf. destruct Hf as [Harr Hline].
  assert (Hq : queue W' = tsqueue.remove_if cancellable (queue W)).
  { subst W'. rewrite receiver_step_at_receive by assumption.
    rewrite Hline, Hcancel. reflexivity. }
  rewrite Hq. split; [apply remove_if_filter|].
  split; [apply cancellable_spec|].
  split; [|split].
  - intros x Hin Hid. apply remove_if_In. split; [assumption|].
    destruct (cancellable x) eqn:Hc; [|reflexivity].
    apply cancellable_spec in Hc. tauto.
  - intros x Hin Htok. apply remove_if_In. split; [assumption|].
    destruct (cancellable x) eqn:Hc; [|reflexivity].
    apply cancellable_spec in Hc. destruct Hc as [Hp _].
    apply tile_prefix_first_token in Hp. contradiction.
  - apply remove_if_sublist.
Qed.

(** C4: a "canceltiles" frame on a ToClient session is handed to
    [handleInput] by the receiver itself, as it was received, and is
    not put on the work queue; so it is for an empty queue, which
    stays empty.  The receiver goes on with the next frame. *)
Theorem canceltiles_forwarded_synchronously W flags frame :
  receiver W = AtReceive ->
  canceltiles_frame flags frame = true ->
  let W' := receiver_step handleInput stack ToClient W (Frame flags frame) in
  inputs W' = inputs W ++ [frame]
  /\ queue W' = tsqueue.remove_if cancellable (queue W)
  /\ (queue W = [] -> queue W' = [])
  /\ receiver W' = AtReceive
  /\ consumer W' = consumer W.
Proof.
  intros Hpc Hf W'. unfold canceltiles_frame in Hf.
  apply andb_true_iff in Hf. destruct Hf as [Hf Hcancel].
  apply andb_true_iff in Hf. destruct Hf as [Harr Hline].
  subst W'. rewrite receiver_step_at_receive by assumption.
  rewrite Hline, Hcancel. simpl.
  repeat split; try assumption.
  intros ->. reflexivity.
Qed.

End MasterFacts.

(** C1 as the specification words it fails: an element whose first
    token is [tile] but which does not begin with [tile ] stays in the
    queue, although it has no [id=]. *)
Lemma canceltiles_keeps_unprefixed_tile :
  let W := Master.mkWorld [" tile part=0 x=0"; "tile"]%string [] Master.AtReceive Master.Running in
  let W' := Master.receiver_step (fun _ _ => true) example_stack Master.ToClient W
              (WebSocket.Frame WebSocket.FRAME_TEXT "canceltiles") in
  canceltiles_frame WebSocket.FRAME_TEXT "canceltiles" = true
  /\ spec_prunable " tile part=0 x=0" = true
  /\ spec_prunable "tile" = true
  /\ List.filter (fun x => negb (spec_prunable x)) (Master.queue W) = []
  /\ Master.queue W' = [" tile part=0 x=0"; "tile"]%string.
Proof. vm_compute. repeat split. Qed.

Lemma canceltiles_prunes_tile_prefix_witness :
  let W := Master.mkWorld
             ["tile part=0 x=0"; "tile part=0 x=256 id=7"; "key type=input"]%string
             [] Master.AtReceive Master.Running in
  let W' := Master.receiver_step (fun _ _ => true) example_stack Master.ToClient W
              (WebSocket.Frame WebSocket.FRAME_TEXT "canceltiles") in
  Master.queue W' = ["tile part=0 x=256 id=7"; "key type=input"]%string.
Proof.
  intros W W'.
  destruct (canceltiles_prunes_tile_prefix (fun _ _ => true) example_stack W
              WebSocket.FRAME_TEXT "canceltiles" eq_refl eq_refl) as [H _].
  exact H.
Defined.

Lemma canceltiles_forwarded_synchronously_witness :
  let W := Master.mkWorld [] [] Master.AtReceive Master.Running in
  let W' := Master.receiver_step (fun _ _ => true) example_stack Master.ToClient W
              (WebSocket.Frame WebSocket.FRAME_TEXT "canceltiles") in
  Master.inputs W' = ["canceltiles"]%string /\ Master.queue W' = [].
Proof.
  intros W W'.
  destruct (canceltiles_forwarded_synchronously (fun _ _ => true) example_stack W
              WebSocket.FRAME_TEXT "canceltiles" eq_refl eq_refl)
    as (Hin & _ & Hq & _).
  split; [exact Hin | exact (Hq eq_refl)].
Defined.

(** ** One line or several: the queue and the direct path *)

Lemma getFirstLine_size (frame : string) :
  Str.size (LOOLProtocol.getFirstLine frame) <= Str.size frame.
Proof.
  unfold Str.size. apply inj_le.
  induction frame as [|c frame IH]; simpl; [lia|].
  destruct (Ascii.eqb c LOOLProtocol.LF); simpl; lia.
Qed.

(** A frame is one line exactly when it holds no line feed. *)
Lemma single_line_no_LF (frame : string) :
  single_line frame = true
  <-> ~ In LOOLProtocol.LF (list_ascii_of_string frame).
Proof.
  unfold single_line, Str.size. rewrite Z.eqb_eq, Nat2Z.inj_iff.
  induction frame as [|c frame IH]; simpl; [tauto|].
  destruct (Ascii.eqb_spec c LOOLProtocol.LF) as [->|Hne]; simpl.
  - split; [discriminate | intros H; exfalso; apply H; left; reflexivity].
  - split.
    + intros H [Heq|Hin]; [congruence|].
      apply IH; [lia | assumption].
    + intros H. f_equal. apply IH. intros Hin. apply H. right. assumption.
Qed.





Section ReceiverPaths.
Import WebSocket Master.

Variable handleInput : list string -> string -> bool.
Variable stack : Z.



End ReceiverPaths.




(** ** The end of a session: "eof" and the queue handler *)

Section SessionEnd.
Import WebSocket Master.

Variable handleInput : list string -> string -> bool.
Variable stack : Z.

Lemma receiving_cases W :
  receiving W <-> receiver W = AtReceive \/ exists size, receiver W = AtReceiveLarge size.
Proof.
  unfold receiving. destruct (receiver W); split; try tauto; eauto;
    intros [H|[s H]]; discriminate.
Qed.

(** A closing event takes the receiver out of its loop, to
    [queue.clear()]. *)
Lemma receiver_step_closes kind W w :
  receiving W -> closes w = true ->
  receiver_step handleInput stack kind W w = clear_queue W.
Proof.
  unfold receiving, receiver_step. intros Hr Hc.
  destruct (receiver W); try contradiction;
    destruct w as [flags payload|e]; unfold receiveFrame, closes in *;
    try reflexivity;
    apply negb_true_iff in Hc;
    destruct (_ <=? _); rewrite ?Hc; reflexivity.
Qed.

(** Whatever arrives, the receiver stays in its loop or has just
    cleared the queue, unless the process is killed at the large
    buffer. *)
Lemma receiver_step_next kind W w :
  receiving W ->
  let W' := receiver_step handleInput stack kind W w in
  receiving W' \/ (receiver W' = AtPutEof /\ queue W' = [])
  \/ receiver W' = Killed.
Proof.
  unfold receiving, receiver_step, handle, clear_queue, largeBuffer,
    set_receiver, set_queue.
  intros Hr.
  destruct (receiver W) eqn:Hpc; try contradiction; simpl;
    repeat match goal with
           | |- context [match ?x with _ => _ end] =>
               destruct x eqn:?; simpl in *; try discriminate;
               try rewrite Hpc; auto
           end.
Qed.

(** No process is killed by what fits the stack. *)
Lemma receiver_step_fits kind W w :
  receiving W -> fits stack w = true ->
  let W' := receiver_step handleInput stack kind W w in
  receiving W' \/ (receiver W' = AtPutEof /\ queue W' = []).
Proof.
  intros Hr Hfit W'.
  destruct (receiver_step_next kind W w Hr) as [H|[H|Hk]]; [auto|auto|].
  exfalso. fold W' in Hk. subst W'.
  unfold receiving in Hr. unfold receiver_step in Hk.
  destruct (receiver W) eqn:Hpc; try contradiction.
  - destruct w as [flags payload|e]; simpl in Hk;
      [|unfold clear_queue in Hk; simpl in Hk; discriminate].
    unfold receiveFrame in Hk.
    destruct (Str.size payload <=? 100000);
      [|unfold clear_queue in Hk; simpl in Hk; discriminate].
    destruct (data_frame (Str.size payload) flags);
      [|unfold clear_queue in Hk; simpl in Hk; discriminate].
    simpl in Hfit. fold (tokens_of payload) in Hk.
    destruct (Kind_eqb kind ToClient && _)%bool.
    + destruct (is_canceltiles (tokens_of payload)); simpl in Hk;
        rewrite Hpc in Hk; discriminate.
    + destruct (nextmessage (tokens_of payload)) as [size|].
      * unfold largeBuffer in Hk. rewrite Hfit in Hk. simpl in Hk. discriminate.
      * unfold handle in Hk. simpl in Hk.
        destruct (handleInput (inputs W) payload); simpl in Hk;
          [rewrite Hpc in Hk|]; discriminate.
  - destruct (receiveFrame size w) as [n flags buffer|e];
      [|unfold clear_queue in Hk; simpl in Hk; discriminate].
    destruct (data_frame n flags);
      [|unfold clear_queue in Hk; simpl in Hk; discriminate].
    unfold handle in Hk. simpl in Hk.
    destruct (handleInput (inputs W) buffer); simpl in Hk; discriminate.
Qed.

Lemma receiver_step_done kind W w :
  ~ receiving W -> receiver_step handleInput stack kind W w = W.
Proof.
  unfold receiving, receiver_step. destruct (receiver W); tauto.
Qed.

Lemma receive_all_done kind script W :
  ~ receiving W -> receive_all handleInput stack kind script W = W.
Proof.
  unfold receive_all. induction script as [|w script IH]; simpl; [reflexivity|].
  intros H. rewrite receiver_step_done by assumption. apply IH. assumption.
Qed.

Lemma handleRequest_killed kind script W :
  receiver W = Killed ->
  receiver (handleRequest handleInput stack kind script W) = Killed.
Proof.
  intros Hpc. unfold handleRequest.
  rewrite receive_all_done by (unfold receiving; rewrite Hpc; tauto).
  unfold finish. rewrite Hpc. assumption.
Qed.

(** The receiver alone: once a closing event is among what the channel
    delivers, [handleRequest] ends at the join with the queue holding
    "eof" and nothing else, unless the process was killed at the large
    buffer before. *)
Lemma handleRequest_leaves_eof kind script W :
  receiving W -> Exists (fun w => closes w = true) script ->
  receiver (handleRequest handleInput stack kind script W) = Killed
  \/ (queue (handleRequest handleInput stack kind script W) = ["eof"%string]
      /\ receiver (handleRequest handleInput stack kind script W) = AtJoin).
Proof.
  intros Hr Hex. revert W Hr.
  assert (Hleft : forall W rest, receiver W = AtPutEof -> queue W = [] ->
            queue (handleRequest handleInput stack kind rest W) = ["eof"%string]
            /\ receiver (handleRequest handleInput stack kind rest W) = AtJoin).
  { intros W rest Hpc Hq. unfold handleRequest.
    rewrite receive_all_done by (unfold receiving; rewrite Hpc; tauto).
    unfold finish. rewrite Hpc. unfold put_eof. simpl. rewrite Hq. auto. }
  induction Hex as [w script Hw|w script Hex IH]; intros W Hr.
  - right. unfold handleRequest, receive_all. simpl.
    rewrite receiver_step_closes by assumption.
    apply (Hleft (clear_queue W) script); reflexivity.
  - destruct (receiver_step_next kind W w Hr) as [Hr'|[[Hpc Hq]|Hk]].
    + apply (IH _ Hr').
    + right. apply (Hleft _ script Hpc Hq).
    + left. apply (handleRequest_killed kind script _ Hk).
Qed.

(** When everything the channel delivers fits the stack, a closing
    event among it ends [handleRequest] at the join with the queue
    holding "eof" and nothing else. *)
Lemma handleRequest_leaves_eof_fits kind script W :
  receiving W ->
  Forall (fun w => fits stack w = true) script ->
  Exists (fun w => closes w = true) script ->
  queue (handleRequest handleInput stack kind script W) = ["eof"%string]
  /\ receiver (handleRequest handleInput stack kind script W) = AtJoin.
Proof.
  intros Hr Hfits Hex. revert W Hr Hfits.
  assert (Hleft : forall W rest, receiver W = AtPutEof -> queue W = [] ->
            queue (handleRequest handleInput stack kind rest W) = ["eof"%string]
            /\ receiver (handleRequest handleInput stack kind rest W) = AtJoin).
  { intros W rest Hpc Hq. unfold handleRequest.
    rewrite receive_all_done by (unfold receiving; rewrite Hpc; tauto).
    unfold finish. rewrite Hpc. unfold put_eof. simpl. rewrite Hq. auto. }
  induction Hex as [w script Hw|w script Hex IH]; intros W Hr Hfits.
  - unfold handleRequest, receive_all. simpl.
    rewrite receiver_step_closes by assumption.
    apply (Hleft (clear_queue W) script); reflexivity.
  - inversion Hfits as [|w' script' Hfw Hfs]; subst.
    destruct (receiver_step_fits kind W w Hr Hfw) as [Hr'|[Hpc Hq]].
    + apply (IH _ Hr' Hfs).
    + apply (Hleft _ script Hpc Hq).
Qed.

Lemma consumer_step_inv W W' :
  consumer_step handleInput W = Some W' ->
  consumer W = Running
  /\ receiver W' = receiver W
  /\ exists input,
      queue W = input :: queue W'
      /\ (input = "eof"%string -> consumer W' = Exited /\ inputs W' = inputs W).
Proof.
  unfold consumer_step, handle.
  destruct (consumer W); try discriminate.
  destruct (queue W) as [|input q'] eqn:Hq; simpl; [discriminate|].
  destruct (String.eqb_spec input "eof") as [->|Hne].
  - intros [= <-]. simpl. eauto 10.
  - destruct (handleInput (inputs W) input); intros [= <-]; simpl;
      (split; [reflexivity|split; [reflexivity|]]);
      exists input; (split; [reflexivity|intros; contradiction]).
Qed.

Lemma after_loop_step kind W W' :
  after_loop W -> sys_step handleInput stack kind W W' -> after_loop W'.
Proof.
  intros Hinv Hstep. destruct Hstep as [W w Hr|W Hpc|W W' Hlive Hc].
  - apply receiving_cases in Hr.
    destruct (receiver_step_next kind W w Hr) as [Hr'|[[Hpc Hq]|Hk]].
    + unfold receiving in Hr'. unfold after_loop.
      destruct (receiver (receiver_step handleInput stack kind W w)); tauto.
    + unfold after_loop. rewrite Hpc. assumption.
    + unfold after_loop. rewrite Hk. exact I.
  - unfold after_loop in *. rewrite Hpc in Hinv.
    unfold put_eof. simpl. rewrite Hinv. left. reflexivity.
  - destruct (consumer_step_inv _ _ Hc) as (Hrun & Hpc & input & Hq & Heof).
    unfold after_loop in *. rewrite Hpc.
    destruct (receiver W); try exact I.
    + rewrite Hq in Hinv. discriminate.
    + destruct Hinv as [Hinv|[Hinv _]]; rewrite Hq in Hinv; [|discriminate].
      injection Hinv as -> Hq'. right. split; [assumption|].
      apply Heof. reflexivity.
Qed.

Lemma after_loop_steps kind W0 W :
  after_loop W0 -> rtc (sys_step handleInput stack kind) W0 W -> after_loop W.
Proof.
  intros H0 Hsteps. induction Hsteps as [W|W0 W1 W Hstep Hsteps IH];
    [assumption|].
  apply IH. apply (after_loop_step kind W0); assumption.
Qed.

Lemma after_loop_receiving W : receiving W -> after_loop W.
Proof.
  unfold receiving, after_loop. destruct (receiver W); tauto.
Qed.

End SessionEnd.

Section SessionEndClaim.
Import WebSocket Master.

Variable handleInput : list string -> string -> bool.
Variable stack : Z.

(** C7: in every interleaving of the receiver and the queue handler of
    a session, a closing event (the channel throws, or an empty or
    close frame arrives) makes the receiver clear the queue and then
    put "eof"; the queue handler cannot take anything in between.  Once
    the receiver is at the join the queue holds "eof" and nothing else,
    and a running queue handler takes it from that queue and leaves its
    loop, unless it has done so already.  Apart from that the queue
    handler leaves its loop as soon as [handleInput] returns false for
    an element it took.  Run on its own over a script with a closing
    event, [handleRequest] ends with the queue holding only "eof"
    whenever no frame of the script is a "nextmessage:" frame for whose
    buffer the stack has no room; the one other end is that of a
    process killed at such a buffer. *)
Theorem session_end_queue_holds_eof kind W0 W :
  receiving W0 ->
  rtc (sys_step handleInput stack kind) W0 W ->
  (forall w, receiving W -> closes w = true ->
     receiver_step handleInput stack kind W w = clear_queue W
     /\ queue (clear_queue W) = []
     /\ consumer_step handleInput (clear_queue W) = None
     /\ queue (put_eof (clear_queue W)) = ["eof"%string]
     /\ receiver (put_eof (clear_queue W)) = AtJoin)
  /\ (receiver W = AtPutEof ->
      queue W = [] /\ consumer_step handleInput W = None)
  /\ (receiver W = AtJoin ->
      (queue W = ["eof"%string]
       /\ (consumer W = Running ->
           consumer_step handleInput W
           = Some (set_consumer Exited (set_queue [] W))))
      \/ (queue W = [] /\ consumer W = Exited))
  /\ (forall input q',
        consumer W = Running -> queue W = input :: q' ->
        input <> "eof"%string -> handleInput (inputs W) input = false ->
        exists W', consumer_step handleInput W = Some W'
                   /\ consumer W' = Exited /\ queue W' = q'
                   /\ inputs W' = inputs W ++ [input])
  /\ (forall script,
        Exists (fun w => closes w = true) script ->
        (Forall (fun w => fits stack w = true) script ->
         queue (handleRequest handleInput stack kind script W0) = ["eof"%string]
         /\ receiver (handleRequest handleInput stack kind script W0) = AtJoin)
        /\ (receiver (handleRequest handleInput stack kind script W0) = Killed
            \/ (queue (handleRequest handleInput stack kind script W0) = ["eof"%string]
                /\ receiver (handleRequest handleInput stack kind script W0) = AtJoin))).
Proof.
  intros Hr0 Hsteps.
  assert (Hinv : after_loop W).
  { apply (after_loop_steps handleInput stack kind W0); [|assumption].
    apply after_loop_receiving. assumption. }
  assert (Hblocked : forall V, queue V = [] -> consumer_step handleInput V = None).
  { intros V HV. unfold consumer_step. rewrite HV.
    destruct (consumer V); reflexivity. }
  split; [|split; [|split; [|split]]].
  - intros w Hr Hw. split; [apply receiver_step_closes; assumption|].
    split; [reflexivity|]. split; [apply Hblocked; reflexivity|].
    split; reflexivity.
  - intros Hpc. unfold after_loop in Hinv. rewrite Hpc in Hinv.
    split; [assumption | apply Hblocked; assumption].
  - intros Hpc. unfold after_loop in Hinv. rewrite Hpc in Hinv.
    destruct Hinv as [Hq|Hq]; [left|right; assumption].
    split; [assumption|]. intros Hrun.
    unfold consumer_step. rewrite Hrun, Hq. reflexivity.
  - intros input q' Hrun Hq Hne Hfalse.
    unfold consumer_step, handle. rewrite Hrun, Hq. simpl.
    destruct (String.eqb_spec input "eof") as [->|_]; [contradiction|].
    rewrite Hfalse. eexists. split; [reflexivity|]. simpl. auto.
  - intros script Hex. split.
    + intros Hfits. apply handleRequest_leaves_eof_fits; assumption.
    + apply handleRequest_leaves_eof; assumption.
Qed.

End SessionEndClaim.

Lemma session_end_queue_holds_eof_witness :
  let h := fun (_ : list string) (_ : string) => true in
  let W0 := Master.start Master.ToClient in
  let W1 := Master.receiver_step h example_stack Master.ToClient W0
              (WebSocket.Frame WebSocket.FRAME_TEXT "key type=input char=97") in
  let W2 := Master.receiver_step h example_stack Master.ToClient W1 (WebSocket.Frame 136 "bye") in
  let W3 := Master.put_eof W2 in
  Master.queue W1 = ["key type=input char=97"]%string
  /\ Master.queue W2 = []
  /\ Master.queue W3 = ["eof"]%string
  /\ Master.consumer_step h W3
     = Some (Master.mkWorld [] [] Master.AtJoin Master.Exited).
Proof.
  intros h W0 W1 W2 W3.
  assert (Hsteps : rtc (Master.sys_step h example_stack Master.ToClient) W0 W3).
  { apply rtc_l with (y := W1); [apply Master.step_receive; left; reflexivity|].
    apply rtc_l with (y := W2); [apply Master.step_receive; left; reflexivity|].
    apply rtc_once. apply Master.step_put_eof. reflexivity. }
  destruct (session_end_queue_holds_eof h example_stack Master.ToClient W0 W3 I Hsteps)
    as (_ & _ & Hjoin & _).
  destruct (Hjoin eq_refl) as [[Hq Hc]|[Hq _]]; [|discriminate Hq].
  split; [reflexivity|]. split; [reflexivity|].
  split; [exact Hq | exact (Hc eq_refl)].
Defined.

(** ** The receiver of a child process *)

Lemma child_receiver_step_fits W flags frame :
  Child.state W = Child.Receiving ->
  WebSocket.data_frame (Str.size frame) flags = true ->
  Str.size frame <= 1024 ->
  Child.receiver_step W (WebSocket.Frame flags frame) =
  if negb (single_line frame) then Child.mkWorld (Child.queue W) Child.AssertionFailed
  else if Master.is_canceltiles (tokens_of frame)
       then Child.mkWorld (tsqueue.remove_if Master.cancellable (Child.queue W))
                          Child.Receiving
       else Child.mkWorld (tsqueue.put (LOOLProtocol.getFirstLine frame) (Child.queue W))
                          Child.Receiving.
Proof.
  intros Hst Hdata Hle. apply Z.leb_le in Hle.
  unfold Child.receiver_step, WebSocket.receiveFrame.
  rewrite Hst, Hle, Hdata. reflexivity.
Qed.

Lemma child_receiver_step_too_long W flags frame :
  Child.state W = Child.Receiving ->
  1024 < Str.size frame ->
  Child.receiver_step W (WebSocket.Frame flags frame) =
  Child.mkWorld (Child.queue W) Child.ExceptionCaught.
Proof.
  intros Hst Hgt. apply Z.leb_gt in Hgt.
  unfold Child.receiver_step, WebSocket.receiveFrame.
  rewrite Hst, Hgt. reflexivity.
Qed.

(** C10: the receiver of a child reads every frame into 1024 bytes and
    asserts that it is one line.  A frame that is not empty and not a
    close frame lets the loop go on exactly when it is at most 1024
    bytes long and holds a single line: a longer frame makes
    [receiveFrame] throw, a frame of several lines fails the [assert].
    When the loop goes on, the line was queued or, being "canceltiles",
    pruned the queue. *)
Theorem child_receiver_needs_short_single_lines W flags frame :
  Child.state W = Child.Receiving ->
  WebSocket.data_frame (Str.size frame) flags = true ->
  let W' := Child.receiver_step W (WebSocket.Frame flags frame) in
  (Child.state W' = Child.Receiving
   <-> Str.size frame <= 1024 /\ single_line frame = true)
  /\ (1024 < Str.size frame ->
      Child.state W' = Child.ExceptionCaught /\ Child.queue W' = Child.queue W)
  /\ (Str.size frame <= 1024 -> single_line frame = false ->
      Child.state W' = Child.AssertionFailed /\ Child.queue W' = Child.queue W)
  /\ (Str.size frame <= 1024 -> single_line frame = true ->
      Child.queue W' =
      if Master.is_canceltiles (tokens_of frame)
      then tsqueue.remove_if Master.cancellable (Child.queue W)
      else tsqueue.put (LOOLProtocol.getFirstLine frame) (Child.queue W)).
Proof.
  intros Hst Hdata W'. subst W'.
  destruct (Z.leb_spec (Str.size frame) 1024) as [Hle|Hgt].
  - rewrite child_receiver_step_fits by assumption.
    destruct (single_line frame) eqn:Hline; simpl.
    + destruct (Master.is_canceltiles (tokens_of frame)); simpl;
        (split; [split; [auto | reflexivity] |]);
        (split; [lia|]); (split; [discriminate|]); reflexivity.
    + split; [split; [discriminate | intros [_ H]; discriminate]|].
      split; [lia|]. split; [auto | discriminate].
  - rewrite child_receiver_step_too_long by assumption. simpl.
    split; [split; [discriminate | lia]|].
    split; [auto|]. split; lia.
Qed.

Lemma child_receiver_needs_short_single_lines_witness :
  let W := Child.mkWorld [] Child.Receiving in
  let frame := String "a" (String LOOLProtocol.LF "b") in
  Child.state (Child.receiver_step W (WebSocket.Frame WebSocket.FRAME_TEXT frame))
  = Child.AssertionFailed.
Proof.
  intros W frame.
  destruct (child_receiver_needs_short_single_lines W WebSocket.FRAME_TEXT frame
              eq_refl eq_refl) as (_ & _ & H & _).
  apply H; [vm_compute; discriminate | reflexivity].
Defined.

(** ** The supervisor *)

Lemma lor_below_pow2 (a b n : Z) :
  0 < n -> 0 <= a < 2 ^ n -> 0 <= b < 2 ^ n -> 0 <= Z.lor a b < 2 ^ n.
Proof.
  intros Hn Ha Hb. split; [apply Z.lor_nonneg; lia|].
  destruct (Z.eq_dec (Z.lor a b) 0) as [->|Hnz]; [lia|].
  assert (0 <= Z.lor a b) by (apply Z.lor_nonneg; lia).
  apply Z.log2_lt_pow2; [lia|].
  rewrite Z.log2_lor by lia.
  assert (Hlog : forall x, 0 <= x < 2 ^ n -> Z.log2 x < n).
  { intros x Hx. destruct (Z.eq_dec x 0) as [->|Hx0]; [simpl; lia|].
    apply Z.log2_lt_pow2; lia. }
  apply Z.max_lub_lt; apply Hlog; assumption.
Qed.

Lemma lor_1_odd (a : Z) : Z.odd (Z.lor a 1) = true.
Proof.
  rewrite <- Z.bit0_odd, Z.lor_spec. apply orb_true_r.
Qed.

(** C6: the id made of two draws of the generator is odd, not zero
    and fits 64 bits.  It is the [_childId] of the process that drew it
    ([loolMain], and each desktop in [desktopMain]); a desktop recorded
    in the child table by [createDesktop] has drawn its own, and a
    component recorded by [createComponent] starts from a copy of its
    desktop and announces the id of that desktop. *)
Theorem child_id_is_odd_and_nonzero (first second : Z) :
  0 <= first < 2 ^ 32 ->
  0 <= second < 2 ^ 32 ->
  let id := Supervisor.newChildId first second in
  Z.odd id = true /\ id <> 0 /\ 0 <= id < 2 ^ 64
  /\ (forall P, Supervisor.childId (Supervisor.draw_childId first second P) = id)
  /\ (forall P pid,
        Supervisor.childProcesses
          (snd (Supervisor.createDesktop P (Supervisor.InParent pid))) !! pid
        = Some pid
        /\ Supervisor.childId (Supervisor.desktop_image P first second) = id)
  /\ (forall D pid,
        Supervisor.childId D = id ->
        Supervisor.childProcesses
          (snd (Supervisor.createComponent D (Supervisor.InParent pid))) !! pid
        = Some pid
        /\ Supervisor.announced_id (Supervisor.component_image D) = id).
Proof.
  intros H1 H2 id.
  assert (Hodd : Z.odd id = true) by apply lor_1_odd.
  split; [assumption|].
  split; [intros H0; rewrite H0 in Hodd; discriminate|].
  split.
  - subst id. unfold Supervisor.newChildId, Supervisor.UInt64.
    apply lor_below_pow2; [lia| |lia].
    apply lor_below_pow2; [lia| |lia].
    apply Z.mod_pos_bound. lia.
  - split; [reflexivity|]. split.
    + intros P pid. split; [|reflexivity].
      simpl. apply lookup_insert_eq.
    + intros D pid HD. split; [|assumption].
      simpl. apply lookup_insert_eq.
Qed.

Lemma child_id_is_odd_and_nonzero_witness :
  Z.odd (Supervisor.newChildId 305419896 2596069104) = true
  /\ Supervisor.newChildId 305419896 2596069104 <> 0.
Proof.
  destruct (child_id_is_odd_and_nonzero 305419896 2596069104
              ltac:(lia) ltac:(lia)) as (Hodd & Hnz & _).
  split; [exact Hodd | exact Hnz].
Defined.

Example child_id_value :
  Supervisor.newChildId 305419896 2596069104 = 1311768467463790321.
Proof. reflexivity. Qed.

(** The loop body never takes an entry out of the child table. *)
Lemma reaper_iteration_keeps_entries P w f pid :
  is_Some (Supervisor.childProcesses P !! pid) ->
  is_Some (Supervisor.childProcesses (snd (Supervisor.reaper_iteration P w f)) !! pid).
Proof.
  intros Hin. unfold Supervisor.reaper_iteration.
  repeat match goal with
         | |- context [if ?b then _ else _] => destruct b
         end; simpl; try assumption;
    destruct f as [|pid']; simpl; try assumption;
    (destruct (decide (pid' = pid)) as [->|Hne];
     [rewrite lookup_insert_eq; eauto | rewrite lookup_insert_ne by assumption; assumption]).
Qed.

Lemma reaperLoop_keeps_entries env P pid :
  is_Some (Supervisor.childProcesses P !! pid) ->
  is_Some (Supervisor.childProcesses (Supervisor.reaperLoop env P) !! pid).
Proof.
  revert P. induction env as [|[w f] env IH]; intros P Hin; simpl; [assumption|].
  destruct (0 <? Z.of_nat (size (Supervisor.childProcesses P))); [|assumption].
  pose proof (reaper_iteration_keeps_entries P w f pid Hin) as Hk.
  destruct (Supervisor.reaper_iteration P w f) as [again P']. simpl in Hk.
  destruct again; [apply IH|]; assumption.
Qed.

(** C5 at a child that has exited: [waitpid] reports pid 4242 with the
    status of a normal exit; the loop body notes that a known child
    died, but the entry of 4242 is still in the child table afterwards,
    and the loop goes on. *)
Theorem reaper_keeps_entry_of_dead_child :
  let P := Supervisor.mkProcess 1311768467463790321 {[4242 := 4242]} 0 1 [] in
  let w := Supervisor.mkWaited 4242 0 false in
  let r := Supervisor.reaper_iteration P w Supervisor.ForkFailed in
  Supervisor.known_child_died P w = true
  /\ fst r = true
  /\ Supervisor.cout (snd r) = ["One of our known child processes died"%string]
  /\ Supervisor.childProcesses (snd r) !! 4242 = Some 4242
  /\ size (Supervisor.childProcesses (snd r)) = 1%nat.
Proof. vm_compute. repeat split. Qed.

(** ** Files and directories *)

Section FileFacts.
Import FS.



Lemma exists_false (p : path) (F : fs) :
  exists_ p F = false <-> p <> [] /\ tree F !! p = None.
Proof.
  unfold exists_. destruct p as [|c p]; [split; [discriminate|tauto]|].
  destruct (tree F !! (c :: p)); intuition discriminate.
Qed.

Lemma exists_true (p : path) (F : fs) :
  exists_ p F = true <-> p = [] \/ is_Some (tree F !! p).
Proof.
  destruct (exists_ p F) eqn:He.
  - split; [intros _|reflexivity].
    unfold exists_ in He. destruct p as [|c p]; [left; reflexivity|].
    right. destruct (tree F !! (c :: p)); [eauto|discriminate].
  - apply exists_false in He. destruct He as [Hp Hn].
    split; [discriminate|]. intros [->|[n Hs]]; congruence.
Qed.

Lemma mkdir_inv (p : path) (F F' : fs) :
  mkdir p F = Some F' ->
  p <> [] /\ tree F !! p = None
  /\ F' = set_tree (<[p := Dir (clock F) (clock F)]> (tree F)) F.
Proof.
  unfold mkdir. destruct (exists_ p F) eqn:He; simpl; [discriminate|].
  apply exists_false in He. destruct He as [Hp Hn].
  destruct (is_dir (parent p) F); [|discriminate].
  intros [= <-]. auto.
Qed.

(** [mkdirs] changes the tree only at names that were free, are at
    most as long as the directory asked for, and become directories. *)
Lemma mkdirs_frame (below : list string) :
  forall (above : path) (F : fs) (ok : bool) (F' : fs),
    mkdirs above below F = (ok, F') ->
    device F' = device F /\ clock F' = clock F /\ next_ino F' = next_ino F
    /\ forall p,
        tree F' !! p = tree F !! p
        \/ (tree F !! p = None
            /\ (exists a m, tree F' !! p = Some (Dir a m))
            /\ (length p <= length (above ++ below))%nat).
Proof.
  induction below as [|c below IH]; intros above F ok F' H; simpl in H.
  - injection H as <- <-. auto.
  - assert (Hlen : length ((above ++ [c]) ++ below) = length (above ++ c :: below)).
    { rewrite <- app_assoc. reflexivity. }
    destruct (exists_ (above ++ [c]) F) eqn:He.
    + specialize (IH _ _ _ _ H). rewrite Hlen in IH. exact IH.
    + destruct (mkdir (above ++ [c]) F) as [F1|] eqn:Hmk.
      * apply mkdir_inv in Hmk. destruct Hmk as (Hne & Hnone & ->).
        specialize (IH _ _ _ _ H). rewrite Hlen in IH.
        destruct IH as (Hd & Hc & Hn & Hp). simpl in *.
        split; [assumption|]. split; [assumption|]. split; [assumption|].
        intros p. destruct (decide (p = above ++ [c])) as [->|Hneq].
        -- right. split; [assumption|].
           destruct (Hp (above ++ [c])) as [Heq|(Hcontra & _)].
           ++ rewrite lookup_insert_eq in Heq. split; [eauto|].
              rewrite !length_app. simpl. lia.
           ++ rewrite lookup_insert_eq in Hcontra. discriminate.
        -- destruct (Hp p) as [Heq|(Hn1 & Hdir & Hl)];
             rewrite lookup_insert_ne in * by congruence; auto.
      * injection H as <- <-. auto.
Qed.

Lemma createDirectories_frame (target : path) (F : fs) (ok : bool) (F' : fs) :
  createDirectories target F = (ok, F') ->
  device F' = device F /\ clock F' = clock F /\ next_ino F' = next_ino F
  /\ forall p,
      tree F' !! p = tree F !! p
      \/ (tree F !! p = None
          /\ (exists a m, tree F' !! p = Some (Dir a m))
          /\ (length p <= length target)%nat).
Proof.
  unfold createDirectories. destruct (exists_ target F).
  - intros [= <- <-]. auto.
  - intros H. apply mkdirs_frame in H. exact H.
Qed.


(** What is there stays; a regular file that is there was there. *)
Lemma createDirectories_keeps (target p : path) (n : node) (F : fs) (ok : bool) (F' : fs) :
  createDirectories target F = (ok, F') ->
  tree F !! p = Some n -> tree F' !! p = Some n.
Proof.
  intros H Hn. apply createDirectories_frame in H.
  destruct H as (_ & _ & _ & Hp).
  destruct (Hp p) as [Heq|(Hnone & _)]; congruence.
Qed.


Lemma mkdirs_makes below : forall above F F',
  mkdirs above below F = (true, F') ->
  below <> [] ->
  is_Some (tree F' !! (above ++ below)).
Proof.
  induction below as [|c below IH]; intros above F F' H Hne; [contradiction|].
  simpl in H.
  assert (Hlast : forall Fx, exists_ (above ++ [c]) Fx = true ->
            mkdirs (above ++ [c]) below Fx = (true, F') ->
            is_Some (tree F' !! (above ++ c :: below))).
  { intros Fx Hex Hm. destruct below as [|c' below'].
    - simpl in Hm. injection Hm as <-.
      apply exists_true in Hex. destruct Hex as [Hnil|Hs]; [|assumption].
      destruct above; discriminate.
    - specialize (IH _ _ _ Hm ltac:(discriminate)).
      rewrite <- app_assoc in IH. exact IH. }
  destruct (exists_ (above ++ [c]) F) eqn:Hex; [exact (Hlast F Hex H)|].
  destruct (mkdir (above ++ [c]) F) as [F1|] eqn:Hmk; [|discriminate].
  apply (Hlast F1); [|assumption].
  apply mkdir_inv in Hmk. destruct Hmk as (_ & _ & ->).
  apply exists_true. right. simpl. rewrite lookup_insert_eq. eauto.
Qed.




Lemma link_inv (src dst : path) (F F' : fs) :
  link src dst F = Some F' ->
  exists ino data,
    tree F !! src = Some (File ino data)
    /\ dst <> [] /\ tree F !! dst = None
    /\ is_dir (parent dst) F = true
    /\ device F src = device F dst
    /\ F' = set_tree (<[dst := File ino data]> (tree F)) F.
Proof.
  unfold link. destruct (tree F !! src) as [[a m|ino data]|]; try discriminate.
  destruct (exists_ dst F) eqn:He; simpl; [discriminate|].
  apply exists_false in He. destruct He as [Hd Hn].
  destruct (is_dir (parent dst) F); simpl; [|discriminate].
  destruct (N.eqb_spec (device F src) (device F dst)); [|discriminate].
  intros [= <-]. eauto 10.
Qed.


Lemma keeps_refl F : keeps F F.
Proof. intros p [a m|ino data] H; eauto. Qed.

Lemma keeps_trans F1 F2 F3 : keeps F1 F2 -> keeps F2 F3 -> keeps F1 F3.
Proof.
  intros H12 H23 p n Hn. specialize (H12 p n Hn).
  destruct n as [a m|ino data].
  - destruct H12 as (a' & m' & H). exact (H23 p _ H).
  - exact (H23 p _ H12).
Qed.

Lemma keeps_insert_free (F : fs) (t : gmap (list string) node) (d : list string)
      (n' : node) (dev : list string -> N) (clk : Z) (nxt : N) (wd hm : list string) :
  tree F !! d = None -> t = <[d := n']> (tree F) ->
  keeps F (mkFs t dev clk nxt wd hm).
Proof.
  intros Hfree -> p n Hn. simpl.
  rewrite lookup_insert_ne by congruence.
  destruct n; eauto.
Qed.

Lemma createDirectories_keeps_all target F ok F' :
  createDirectories target F = (ok, F') -> keeps F F'.
Proof.
  intros H p n Hn.
  rewrite (createDirectories_keeps _ _ _ _ _ _ H Hn). destruct n; eauto.
Qed.

Lemma link_keeps src dst F F' : link src dst F = Some F' -> keeps F F'.
Proof.
  intros H. apply link_inv in H.
  destruct H as (ino & data & _ & _ & Hfree & _ & _ & ->).
  eapply keeps_insert_free; [eassumption|reflexivity].
Qed.

Lemma utime_keeps p times F F' : utime p times F = Some F' -> keeps F F'.
Proof.
  unfold utime. destruct (tree F !! p) as [[a m|ino data]|] eqn:Hp;
    try discriminate; intros [= <-]; [|apply keeps_refl].
  intros q n Hn. simpl.
  destruct (decide (q = p)) as [->|Hne].
  - rewrite lookup_insert_eq. rewrite Hp in Hn. injection Hn as <-. eauto.
  - rewrite lookup_insert_ne by congruence. destruct n; eauto.
Qed.


End FileFacts.

(** ** The jail builder *)

Section JailFacts.
Import FS Jail.



End JailFacts.



(** ** Paths and files of Poco *)

Section PocoFacts.
Import FS.

Lemma strip_spec (s : path) : forall p r, strip s p = Some r <-> p = s ++ r.
Proof.
  induction s as [|c s IH]; intros p r; simpl.
  - split; [intros [= ->]; reflexivity | intros ->; reflexivity].
  - destruct p as [|d p]; [split; discriminate|].
    destruct (String.eqb_spec c d) as [->|Hne].
    + rewrite IH. split; [intros ->; reflexivity | intros [= ->]; reflexivity].
    + split; [discriminate | intros [= <- _]; contradiction].
Qed.

Lemma is_prefix_spec (s p : path) : is_prefix s p = true <-> exists r, p = s ++ r.
Proof.
  unfold is_prefix. destruct (strip s p) as [r|] eqn:H.
  - apply strip_spec in H. split; eauto.
  - split; [discriminate|]. intros [r Hr]. apply strip_spec in Hr. congruence.
Qed.

(** Two ways to cut one name: one front is the front of the other. *)
Lemma app_eq_app_prefix (a b x y : path) :
  a ++ x = b ++ y -> (exists r, b = a ++ r) \/ (exists r, r <> [] /\ a = b ++ r).
Proof.
  revert b. induction a as [|c a IH]; intros b H; simpl in *.
  - left. exists b. reflexivity.
  - destruct b as [|d b]; simpl in *.
    + right. exists (c :: a). split; [discriminate|reflexivity].
    + injection H as -> H. destruct (IH b H) as [[r ->]|(r & Hr & ->)].
      * left. exists r. reflexivity.
      * right. exists r. split; [assumption|reflexivity].
Qed.

Lemma parent_app_last (p : path) (c : string) : parent (p ++ [c]) = p.
Proof. apply removelast_last. Qed.

Lemma is_dir_lookup (p : path) (F : fs) :
  is_dir p F = true -> p = [] \/ exists a m, tree F !! p = Some (Dir a m).
Proof.
  unfold is_dir. destruct p as [|c p]; [auto|].
  destruct (tree F !! (c :: p)) as [[a m|? ?]|]; try discriminate. eauto.
Qed.

Lemma lookup_is_dir (p : path) (F : fs) (a m : Z) :
  tree F !! p = Some (Dir a m) -> is_dir p F = true.
Proof. unfold is_dir. intros H. destruct p; [reflexivity|]. rewrite H. reflexivity. Qed.

(** In a well-formed tree everything above a name that is there is a
    directory. *)
Lemma wf_above (F : fs) (p : path) :
  well_formed F ->
  forall rel n, tree F !! (p ++ rel) = Some n -> rel <> [] -> is_dir p F = true.
Proof.
  intros Hwf rel. induction rel as [|x rel IH] using rev_ind; intros n Hn Hne;
    [contradiction|].
  rewrite app_assoc in Hn. pose proof (Hwf _ _ Hn) as Hd.
  rewrite parent_app_last in Hd.
  destruct rel as [|y rel]; [rewrite app_nil_r in Hd; exact Hd|].
  apply is_dir_lookup in Hd. destruct Hd as [Hnil|(a & m & Hz)].
  - destruct p; discriminate.
  - exact (IH _ Hz ltac:(discriminate)).
Qed.

(** Nothing is below a name that is free or a regular file. *)
Lemma wf_nothing_below (F : fs) (p rel : path) :
  well_formed F -> is_dir p F = false -> rel <> [] -> tree F !! (p ++ rel) = None.
Proof.
  intros Hwf Hp Hne. destruct (tree F !! (p ++ rel)) as [n|] eqn:Hn; [|reflexivity].
  rewrite (wf_above F p Hwf rel n Hn Hne) in Hp. discriminate.
Qed.

Lemma keeps_is_dir (F F' : fs) (p : path) :
  keeps F F' -> is_dir p F = true -> is_dir p F' = true.
Proof.
  intros Hk Hd. apply is_dir_lookup in Hd. destruct Hd as [->|(a & m & Hp)]; [reflexivity|].
  destruct (Hk _ _ Hp) as (a' & m' & Hp'). exact (lookup_is_dir _ _ _ _ Hp').
Qed.

Lemma keeps_exists (F F' : fs) (p : path) :
  keeps F F' -> exists_ p F = true -> exists_ p F' = true.
Proof.
  intros Hk He. apply exists_true in He. apply exists_true.
  destruct He as [->|[n Hn]]; [left; reflexivity|right].
  specialize (Hk _ _ Hn). destruct n; [destruct Hk as (a & m & ->)|rewrite Hk]; eauto.
Qed.

(** A new name in a directory leaves the tree well formed. *)
Lemma wf_insert (F F' : fs) (p : path) (n : node) :
  well_formed F -> tree F !! p = None -> p <> [] ->
  is_dir (parent p) F = true ->
  tree F' = <[p := n]> (tree F) ->
  well_formed F'.
Proof.
  intros Hwf Hfree Hp Hdir Ht q x Hq. rewrite Ht in Hq.
  assert (Hmono : forall r, is_dir r F = true -> is_dir r F' = true).
  { intros r Hr. apply is_dir_lookup in Hr. destruct Hr as [->|(a & m & Hr)]; [reflexivity|].
    apply (lookup_is_dir r F' a m). rewrite Ht.
    rewrite lookup_insert_ne by congruence. assumption. }
  destruct (decide (q = p)) as [->|Hne].
  - apply Hmono. assumption.
  - rewrite lookup_insert_ne in Hq by congruence.
    apply Hmono. exact (Hwf _ _ Hq).
Qed.

Lemma mkdir_wf (p : path) (F F' : fs) :
  well_formed F -> mkdir p F = Some F' -> well_formed F'.
Proof.
  intros Hwf H. unfold mkdir in H.
  destruct (exists_ p F) eqn:He; simpl in H; [discriminate|].
  apply exists_false in He. destruct He as [Hp Hfree].
  destruct (is_dir (parent p) F) eqn:Hd; [|discriminate].
  injection H as <-.
  eapply wf_insert; eauto.
Qed.

Lemma mkdirs_wf (below : list string) : forall above F ok F',
  well_formed F -> mkdirs above below F = (ok, F') -> well_formed F'.
Proof.
  induction below as [|c below IH]; intros above F ok F' Hwf H; simpl in H.
  - injection H as _ <-. assumption.
  - destruct (exists_ (above ++ [c]) F); [exact (IH _ _ _ _ Hwf H)|].
    destruct (mkdir (above ++ [c]) F) as [F1|] eqn:Hmk.
    + exact (IH _ _ _ _ (mkdir_wf _ _ _ Hwf Hmk) H).
    + injection H as _ <-. assumption.
Qed.

Lemma link_wf (src dst : path) (F F' : fs) :
  well_formed F -> link src dst F = Some F' -> well_formed F'.
Proof.
  intros Hwf H. apply link_inv in H.
  destruct H as (ino & data & _ & Hd & Hfree & Hdir & _ & ->).
  eapply wf_insert; eauto.
Qed.

(** The names [mkdirs] makes are on the way to the directory asked
    for. *)
Lemma mkdirs_on_the_way (below : list string) :
  forall (above : path) (F : fs) (ok : bool) (F' : fs),
    mkdirs above below F = (ok, F') ->
    cwd F' = cwd F /\ home F' = home F
    /\ forall p,
        tree F' !! p = tree F !! p
        \/ (tree F !! p = None
            /\ (exists a m, tree F' !! p = Some (Dir a m))
            /\ exists r, above ++ below = p ++ r).
Proof.
  induction below as [|c below IH]; intros above F ok F' H; simpl in H.
  - injection H as <- <-. auto.
  - assert (Happ : (above ++ [c]) ++ below = above ++ c :: below)
      by (rewrite <- app_assoc; reflexivity).
    destruct (exists_ (above ++ [c]) F) eqn:He.
    + specialize (IH _ _ _ _ H). rewrite Happ in IH. exact IH.
    + destruct (mkdir (above ++ [c]) F) as [F1|] eqn:Hmk.
      * apply mkdir_inv in Hmk. destruct Hmk as (Hne & Hnone & ->).
        specialize (IH _ _ _ _ H). rewrite Happ in IH.
        destruct IH as (Hc & Hh & Hp). simpl in *.
        split; [assumption|]. split; [assumption|].
        intros p. destruct (decide (p = above ++ [c])) as [->|Hneq].
        -- right. split; [assumption|].
           destruct (Hp (above ++ [c])) as [Heq|(Hcontra & _)].
           ++ rewrite lookup_insert_eq in Heq. split; [eauto|].
              exists below. symmetry. exact Happ.
           ++ rewrite lookup_insert_eq in Hcontra. discriminate.
        -- destruct (Hp p) as [Heq|(Hn1 & Hdir & Hl)];
             rewrite lookup_insert_ne in * by congruence; auto.
      * injection H as <- <-. auto.
Qed.


Lemma base_cwd (P : Path) (F F' : fs) : cwd F' = cwd F -> base P F' = base P F.
Proof. intros H. unfold base, origin. rewrite H. reflexivity. Qed.

Lemma full_cwd (P : Path) (F F' : fs) : cwd F' = cwd F -> full P F' = full P F.
Proof. intros H. unfold full. rewrite (base_cwd P F F' H). reflexivity. Qed.

(** What [File(P).createDirectories()] changes: names that were free,
    are on the way to the directory asked for, and become
    directories. *)
Lemma File_createDirectories_frame (P : Path) (F : fs) (ok : bool) (F' : fs) :
  File_createDirectories P F = (ok, F') ->
  cwd F' = cwd F /\ home F' = home F
  /\ forall p,
      tree F' !! p = tree F !! p
      \/ (tree F !! p = None
          /\ (exists a m, tree F' !! p = Some (Dir a m))
          /\ exists r, full P F = p ++ r).
Proof.
  unfold File_createDirectories.
  assert (Hnone : forall b, (b, F) = (ok, F') ->
            cwd F' = cwd F /\ home F' = home F
            /\ forall p,
                tree F' !! p = tree F !! p
                \/ (tree F !! p = None
                    /\ (exists a m, tree F' !! p = Some (Dir a m))
                    /\ exists r, full P F = p ++ r)).
  { intros b [= _ <-]. auto. }
  assert (Hmk : mkdirs [] (full P F) F = (ok, F') ->
            cwd F' = cwd F /\ home F' = home F
            /\ forall p,
                tree F' !! p = tree F !! p
                \/ (tree F !! p = None
                    /\ (exists a m, tree F' !! p = Some (Dir a m))
                    /\ exists r, full P F = p ++ r)).
  { intros H. exact (mkdirs_on_the_way _ _ _ _ _ H). }
  destruct (File_exists P F) as [[|]|]; try apply Hnone.
  destruct (_ || _)%bool; [apply Hnone|].
  destruct (dirs P); destruct (Str.is_empty (name P)); try exact Hmk;
    destruct (is_dir (origin P F) F); solve [exact Hmk | apply Hnone].
Qed.

Lemma File_createDirectories_keeps (P : Path) (F : fs) (ok : bool) (F' : fs) :
  File_createDirectories P F = (ok, F') -> keeps F F'.
Proof.
  intros H. apply File_createDirectories_frame in H.
  destruct H as (_ & _ & Hp). intros p n Hn.
  destruct (Hp p) as [Heq|(Hnone & _)]; [|congruence].
  rewrite Heq, Hn. destruct n; eauto.
Qed.

Lemma File_createDirectories_wf (P : Path) (F : fs) (ok : bool) (F' : fs) :
  well_formed F -> File_createDirectories P F = (ok, F') -> well_formed F'.
Proof.
  intros Hwf. unfold File_createDirectories.
  assert (Hnone : forall b, (b, F) = (ok, F') -> well_formed F')
    by (intros b [= _ <-]; assumption).
  assert (Hmk : mkdirs [] (full P F) F = (ok, F') -> well_formed F')
    by (intros H; exact (mkdirs_wf _ _ _ _ _ Hwf H)).
  destruct (File_exists P F) as [[|]|]; try apply Hnone.
  destruct (_ || _)%bool; [apply Hnone|].
  destruct (dirs P); destruct (Str.is_empty (name P)); try exact Hmk;
    destruct (is_dir (origin P F) F); solve [exact Hmk | apply Hnone].
Qed.

(** The name [File(P)] stands for when it can be made. *)
Lemma target_full (P : Path) (F : fs) :
  (String.eqb (name P) "." || String.eqb (name P) "..")%bool = false ->
  target P F = Some (full P F).
Proof.
  intros H. apply orb_false_iff in H. destruct H as [H1 H2].
  unfold target, full. rewrite H1, H2.
  destruct (Str.is_empty (name P)); [rewrite app_nil_r|]; reflexivity.
Qed.

Lemma File_exists_keeps (P : Path) (F F' : fs) :
  keeps F F' -> cwd F' = cwd F ->
  File_exists P F = Some true -> File_exists P F' = Some true.
Proof.
  intros Hk Hc. unfold File_exists.
  destruct (no_name_at_all P); [discriminate|].
  unfold target. rewrite (base_cwd P F F' Hc).
  intros [= H]. f_equal.
  destruct (String.eqb (name P) ".").
  { destruct (is_dir (base P F) F) eqn:Hd; [|discriminate].
    rewrite (keeps_is_dir _ _ _ Hk Hd). exact (keeps_exists _ _ _ Hk H). }
  destruct (String.eqb (name P) "..").
  { destruct (is_dir (base P F) F) eqn:Hd; [|discriminate].
    rewrite (keeps_is_dir _ _ _ Hk Hd). exact (keeps_exists _ _ _ Hk H). }
  destruct (Str.is_empty (name P)); exact (keeps_exists _ _ _ Hk H).
Qed.

(** After [createDirectories] ended well the path exists. *)
Lemma File_createDirectories_exists (P : Path) (F F' : fs) :
  File_createDirectories P F = (true, F') -> File_exists P F' = Some true.
Proof.
  intros H. pose proof (File_createDirectories_frame _ _ _ _ H) as (Hc & _ & _).
  unfold File_createDirectories in H.
  destruct (File_exists P F) as [[|]|] eqn:He; [| |discriminate].
  { injection H as <-. assumption. }
  destruct (_ || _)%bool eqn:Hdots; [discriminate|].
  assert (Hmk : mkdirs [] (full P F) F = (true, F') -> File_exists P F' = Some true).
  { intros Hm. unfold File_exists in *.
    destruct (no_name_at_all P); [discriminate|].
    rewrite (target_full _ _ Hdots), (full_cwd P F F' Hc). f_equal.
    destruct (full P F) as [|c l] eqn:Hf; [reflexivity|].
    apply exists_true. right.
    exact (mkdirs_makes (c :: l) [] F F' Hm ltac:(discriminate)). }
  destruct (dirs P); destruct (Str.is_empty (name P)); try exact (Hmk H);
    destruct (is_dir (origin P F) F); solve [exact (Hmk H) | discriminate].
Qed.


Lemma is_empty_spec (x : string) : Str.is_empty x = true <-> x = EmptyString.
Proof. destruct x; simpl; split; congruence. Qed.

Lemma dir_exists (p : path) (F : fs) : is_dir p F = true -> exists_ p F = true.
Proof.
  unfold is_dir, exists_. destruct p; [reflexivity|].
  destruct (tree F !! _) as [[|]|]; congruence.
Qed.

(** In a well-formed tree the directory of a name that exists
    exists. *)
Lemma wf_parent_exists (p : path) (F : fs) :
  well_formed F -> exists_ p F = true -> is_dir (parent p) F = true.
Proof.
  intros Hwf He. apply exists_true in He. destruct He as [->|[n Hn]]; [reflexivity|].
  exact (Hwf _ _ Hn).
Qed.




(** *** link on two paths *)

Lemma linkNames_inv (S D : Path) (F F' : fs) :
  linkNames S D F = Some F' ->
  plain S = true /\ plain D = true
  /\ link (base S F ++ [name S]) (base D F ++ [name D]) F = Some F'.
Proof.
  unfold linkNames. destruct (plain S); destruct (plain D); simpl; try discriminate.
  auto.
Qed.

Lemma plain_target (P : Path) (F : fs) :
  plain P = true -> target P F = Some (base P F ++ [name P]).
Proof.
  unfold plain, target. intros H. apply negb_true_iff in H.
  apply orb_false_iff in H. destruct H as [H H3].
  apply orb_false_iff in H. destruct H as [H1 H2].
  rewrite H1, H2, H3. reflexivity.
Qed.

Lemma plain_not_empty (P : Path) : plain P = true -> no_name_at_all P = false.
Proof.
  unfold plain, no_name_at_all. intros H. apply negb_true_iff in H.
  apply orb_false_iff in H. destruct H as [H _].
  apply orb_false_iff in H. destruct H as [H _].
  rewrite H. rewrite andb_false_r. reflexivity.
Qed.


(** *** copyTo *)

Lemma copy_fold_spec (now : Z) (s t : path) (i0 : N) (m : gmap path node) :
  let r := map_fold (copy_entry now s t) (∅, i0) m in
  (forall c rel n,
     m !! (s ++ c :: rel) = Some n ->
     contents (fst r !! (t ++ c :: rel)) = contents (Some n))
  /\ (forall q x,
        fst r !! q = Some x ->
        exists c rel n, q = t ++ c :: rel /\ m !! (s ++ c :: rel) = Some n).
Proof.
  cbv zeta.
  apply (map_fold_weak_ind
           (fun r m =>
              (forall c rel n,
                 m !! (s ++ c :: rel) = Some n ->
                 contents (fst r !! (t ++ c :: rel)) = contents (Some n))
              /\ (forall q x,
                    fst r !! q = Some x ->
                    exists c rel n, q = t ++ c :: rel /\ m !! (s ++ c :: rel) = Some n))).
  - split.
    + intros c rel n H. rewrite lookup_empty in H. discriminate.
    + intros q x H. simpl in H. rewrite lookup_empty in H. discriminate.
  - intros i x m' r Hfree [Ha Hb].
    unfold copy_entry. destruct (strip s i) as [[|c0 rel0]|] eqn:Hs.
    + (* the source directory itself *)
      apply strip_spec in Hs. rewrite app_nil_r in Hs. subst i. split.
      * intros c rel n H. rewrite lookup_insert_ne in H; [exact (Ha _ _ _ H)|].
        intros Heq. apply (f_equal (@length string)) in Heq.
        rewrite length_app in Heq. simpl in Heq. lia.
      * intros q y H. destruct (Hb q y H) as (c & rel & n & -> & Hn).
        exists c, rel, n. split; [reflexivity|].
        rewrite lookup_insert_ne; [assumption|].
        intros Heq. apply (f_equal (@length string)) in Heq.
        rewrite length_app in Heq. simpl in Heq. lia.
    + (* an entry below the source *)
      apply strip_spec in Hs. subst i.
      assert (Hkey : forall c rel, t ++ c :: rel = t ++ c0 :: rel0 ->
                                   s ++ c :: rel = s ++ c0 :: rel0).
      { intros c rel Heq. apply app_inv_head in Heq. rewrite Heq. reflexivity. }
      assert (Hnew : forall y, (forall c rel n,
                <[s ++ c0 :: rel0 := x]> m' !! (s ++ c :: rel) = Some n ->
                contents (<[t ++ c0 :: rel0 := y]> (fst r) !! (t ++ c :: rel))
                = contents (Some (if decide (c :: rel = c0 :: rel0) then y else n)))).
      { intros y c rel n H.
        destruct (decide (c :: rel = c0 :: rel0)) as [Heq|Hne].
        - rewrite Heq, lookup_insert_eq. reflexivity.
        - rewrite lookup_insert_ne in H
            by (intros Heq; apply app_inv_head in Heq; congruence).
          rewrite lookup_insert_ne
            by (intros Heq; apply app_inv_head in Heq; congruence).
          exact (Ha _ _ _ H). }
      assert (Hold : forall y q z,
                <[t ++ c0 :: rel0 := y]> (fst r) !! q = Some z ->
                exists c rel n,
                  q = t ++ c :: rel
                  /\ <[s ++ c0 :: rel0 := x]> m' !! (s ++ c :: rel) = Some n).
      { intros y q z H.
        destruct (decide (q = t ++ c0 :: rel0)) as [->|Hne].
        - exists c0, rel0, x. split; [reflexivity|apply lookup_insert_eq].
        - rewrite lookup_insert_ne in H by congruence.
          destruct (Hb q z H) as (c & rel & n & -> & Hn).
          exists c, rel, n. split; [reflexivity|].
          rewrite lookup_insert_ne; [assumption|].
          intros Heq. apply app_inv_head in Heq. apply Hne. rewrite Heq. reflexivity. }
      destruct x as [a mt|ino data]; simpl; split.
      * intros c rel n H. rewrite (Hnew _ c rel n H).
        destruct (decide (c :: rel = c0 :: rel0)) as [Heq|Hne]; [|reflexivity].
        rewrite Heq, lookup_insert_eq in H. injection H as <-. reflexivity.
      * apply Hold.
      * intros c rel n H. rewrite (Hnew _ c rel n H).
        destruct (decide (c :: rel = c0 :: rel0)) as [Heq|Hne]; [|reflexivity].
        rewrite Heq, lookup_insert_eq in H. injection H as <-. reflexivity.
      * apply Hold.
    + (* an entry elsewhere *)
      assert (Hne : forall c rel, i <> s ++ c :: rel).
      { intros c rel Heq. apply strip_spec in Heq. congruence. }
      split.
      * intros c rel n H. rewrite lookup_insert_ne in H by apply Hne.
        exact (Ha _ _ _ H).
      * intros q y H. destruct (Hb q y H) as (c & rel & n & -> & Hn).
        exists c, rel, n. split; [reflexivity|].
        rewrite lookup_insert_ne by apply Hne. assumption.
Qed.

Lemma copy_below_keeps (s t : path) (F : fs) :
  keeps F (copy_below s t F) /\ cwd (copy_below s t F) = cwd F.
Proof.
  split; [|reflexivity]. intros p n Hn. simpl.
  assert (H : (tree F ∪ fst (map_fold (copy_entry (clock F) s t) (∅, next_ino F) (tree F)))
              !! p = Some n).
  { apply lookup_union_Some_raw. left. assumption. }
  rewrite H. destruct n; eauto.
Qed.


Lemma not_exists_inv (D : Path) (F : fs) :
  File_exists D F = Some false ->
  no_name_at_all D = false
  /\ match target D F with
     | Some p => p <> [] /\ tree F !! p = None
     | None => True
     end.
Proof.
  unfold File_exists. destruct (no_name_at_all D); [discriminate|].
  intros [= H]. split; [reflexivity|].
  destruct (target D F) as [p|]; [|exact I].
  apply exists_false. assumption.
Qed.

Lemma base_set_name (n : string) (D : Path) (F : fs) :
  base (set_name n D) F = base D F.
Proof. reflexivity. Qed.

(** Where the copy goes when the destination does not exist. *)
Lemma copy_place (S D : Path) (F : fs) :
  let D' := if Str.is_empty (name D) then set_name (fileName S) D else D in
  base D' F ++ [name D'] = place S D F /\ base D' F = base D F.
Proof.
  unfold place. destruct (Str.is_empty (name D)); simpl; auto.
Qed.

(** For a destination that does not exist the place of the copy is
    free, and it is the destination itself when a regular file can be
    written there. *)
Lemma place_free (S D : Path) (F : fs) :
  well_formed F ->
  File_exists D F = Some false ->
  plain (if Str.is_empty (name D) then set_name (fileName S) D else D) = true ->
  tree F !! place S D F = None
  /\ (is_dir (base D F) F = true ->
      Str.is_empty (name D) = false /\ target D F = Some (place S D F)).
Proof.
  intros Hwf He Hplain. apply not_exists_inv in He. destruct He as [_ He].
  unfold place. destruct (Str.is_empty (name D)) eqn:Hn.
  - apply is_empty_spec in Hn. unfold target in He. rewrite Hn in He. simpl in He.
    destruct He as [Hne Hfree].
    assert (Hnd : is_dir (base D F) F = false).
    { unfold is_dir. destruct (base D F); [contradiction|]. rewrite Hfree. reflexivity. }
    split; [|rewrite Hnd; discriminate].
    apply wf_nothing_below; [assumption|assumption|discriminate].
  - rewrite (plain_target D F Hplain) in He. destruct He as [_ Hfree].
    split; [assumption|]. intros _. split; [reflexivity|].
    apply plain_target. assumption.
Qed.

Lemma copyTo_keeps (S D : Path) (F : fs) :
  File_exists D F = Some false ->
  keeps F (snd (copyTo S D F)) /\ cwd (snd (copyTo S D F)) = cwd F
  /\ home (snd (copyTo S D F)) = home F.
Proof.
  intros He. pose proof (not_exists_inv D F He) as [_ Hfree].
  unfold copyTo. rewrite He. cbn [andb orb].
  set (D' := if Str.is_empty (name D) then set_name (fileName S) D else D).
  destruct (negb (plain D') || no_name_at_all S)%bool eqn:Hg;
    [split; [apply keeps_refl|split; reflexivity]|].
  apply orb_false_iff in Hg. destruct Hg as [Hplain _].
  apply negb_false_iff in Hplain.
  destruct (target S F) as [s|]; [|split; [apply keeps_refl|split; reflexivity]].
  destruct (match s with [] => Some (Dir 0 0) | _ :: _ => tree F !! s end)
    as [[a m|ino data]|]; [| |split; [apply keeps_refl|split; reflexivity]].
  - destruct (File_createDirectories D' F) as [[|] F1] eqn:Hcd;
      pose proof (File_createDirectories_keeps _ _ _ _ Hcd) as Hk;
      pose proof (File_createDirectories_frame _ _ _ _ Hcd) as (Hc & Hh & _);
      [|split; [assumption|split; assumption]].
    destruct (is_prefix s (base D' F ++ [name D']));
      [split; [assumption|split; assumption]|].
    simpl. split; [|split; assumption].
    eapply keeps_trans; [exact Hk|]. apply copy_below_keeps.
  - destruct (is_dir (base D' F) F) eqn:Hd; [|split; [apply keeps_refl|split; reflexivity]].
    assert (Ht : tree F !! (base D' F ++ [name D']) = None).
    { subst D'. destruct (Str.is_empty (name D)) eqn:Hn.
      - exfalso. apply is_empty_spec in Hn. unfold target in Hfree.
        rewrite Hn in Hfree. simpl in Hfree. destruct Hfree as [Hne Hf].
        rewrite base_set_name in Hd. unfold is_dir in Hd.
        destruct (base D F); [contradiction|]. rewrite Hf in Hd. discriminate.
      - rewrite (plain_target D F Hplain) in Hfree. tauto. }
    rewrite Ht. simpl. split; [|split; reflexivity].
    eapply keeps_insert_free; [exact Ht|reflexivity].
Qed.


Lemma target_keeps (P : Path) (F F' : fs) (s : path) :
  keeps F F' -> cwd F' = cwd F ->
  target P F = Some s -> target P F' = Some s.
Proof.
  intros Hk Hc. unfold target. rewrite (base_cwd P F F' Hc).
  destruct (String.eqb (name P) ".").
  { destruct (is_dir (base P F) F) eqn:Hd; [|discriminate].
    rewrite (keeps_is_dir _ _ _ Hk Hd). auto. }
  destruct (String.eqb (name P) "..").
  { destruct (is_dir (base P F) F) eqn:Hd; [|discriminate].
    rewrite (keeps_is_dir _ _ _ Hk Hd). auto. }
  auto.
Qed.

Lemma target_no_name (D : Path) (F : fs) :
  Str.is_empty (name D) = true -> target D F = Some (base D F).
Proof.
  intros Hn. apply is_empty_spec in Hn. unfold target. rewrite Hn. reflexivity.
Qed.

(** The copy of a regular file to a free name in a directory. *)
Lemma file_copy_same (F F' : fs) (s t : path) (ino ino' : N) (data : string) :
  well_formed F ->
  s <> [] -> t <> [] ->
  tree F !! s = Some (File ino data) ->
  tree F !! t = None ->
  is_dir (parent t) F = true ->
  tree F' = <[t := File ino' data]> (tree F) ->
  same_contents s t F'.
Proof.
  intros Hwf Hsn Htn Hs Ht Hd HF' rel. rewrite HF'.
  assert (Hst : s <> t) by congruence.
  assert (Hsf : is_dir s F = false).
  { unfold is_dir. destruct s; [contradiction|]. rewrite Hs. reflexivity. }
  assert (Htf : is_dir t F = false).
  { unfold is_dir. destruct t; [contradiction|]. rewrite Ht. reflexivity. }
  destruct rel as [|c rel].
  - rewrite !app_nil_r, lookup_insert_eq, lookup_insert_ne by congruence.
    rewrite Hs. reflexivity.
  - assert (H1 : tree F !! (s ++ c :: rel) = None)
      by (apply wf_nothing_below; [assumption|assumption|discriminate]).
    assert (H2 : tree F !! (t ++ c :: rel) = None)
      by (apply wf_nothing_below; [assumption|assumption|discriminate]).
    assert (Hne2 : t ++ c :: rel <> t).
    { intros Heq. apply (f_equal (@length string)) in Heq.
      rewrite length_app in Heq. simpl in Heq. lia. }
    rewrite (lookup_insert_ne _ t (t ++ c :: rel)) by congruence.
    rewrite H2.
    destruct (decide (s ++ c :: rel = t)) as [Heq|Hne].
    + exfalso. (* the directory of [t] would be at or below the file [s] *)
      assert (Hp : parent t = s ++ removelast (c :: rel)).
      { unfold parent. rewrite <- Heq. apply removelast_app. discriminate. }
      rewrite Hp in Hd.
      destruct (removelast (c :: rel)) as [|x l] eqn:Hr.
      * rewrite app_nil_r in Hd. congruence.
      * apply is_dir_lookup in Hd. destruct Hd as [Hnil|(a & m & Hl)].
        -- destruct s; discriminate.
        -- rewrite (wf_nothing_below F s (x :: l) Hwf Hsf ltac:(discriminate)) in Hl.
           discriminate.
    + rewrite lookup_insert_ne by congruence. rewrite H1. reflexivity.
Qed.


(** The copy of a directory to a new directory that is not below it. *)
Lemma dir_copy_same (F : fs) (s t : path) (a m a' m' : Z) :
  tree F !! s = Some (Dir a m) ->
  tree F !! t = Some (Dir a' m') ->
  is_prefix s t = false ->
  (forall c rel, tree F !! (t ++ c :: rel) = None) ->
  same_contents s t (copy_below s t F).
Proof.
  intros Hs Ht Hpre Hbelow rel. unfold copy_below. simpl.
  destruct (copy_fold_spec (clock F) s t (next_ino F) (tree F)) as [Ha Hb].
  set (r := map_fold (copy_entry (clock F) s t) (∅, next_ino F) (tree F)) in *.
  assert (Hnot : forall q x, fst r !! q = Some x -> forall rel', q <> s ++ rel').
  { intros q x Hq rel' ->. destruct (Hb _ _ Hq) as (c & rel0 & n & Heq & Hn).
    destruct (app_eq_app_prefix _ _ _ _ Heq) as [[r0 Hr]|(r0 & Hr0 & Hr)].
    - assert (Hp : is_prefix s t = true) by (apply is_prefix_spec; eauto).
      congruence.
    - destruct r0 as [|c1 r1]; [contradiction|].
      rewrite Hr, Hbelow in Hs. discriminate. }
  destruct rel as [|c rel].
  - rewrite !app_nil_r.
    rewrite (proj2 (lookup_union_Some_raw (tree F) (fst r) s (Dir a m)) (or_introl Hs)).
    rewrite (proj2 (lookup_union_Some_raw (tree F) (fst r) t (Dir a' m')) (or_introl Ht)).
    reflexivity.
  - assert (Hright : (tree F ∪ fst r) !! (t ++ c :: rel) = fst r !! (t ++ c :: rel))
      by (apply lookup_union_r, Hbelow).
    rewrite Hright.
    destruct (tree F !! (s ++ c :: rel)) as [n|] eqn:Hn.
    + rewrite (proj2 (lookup_union_Some_raw (tree F) (fst r) _ n) (or_introl Hn)).
      symmetry. exact (Ha _ _ _ Hn).
    + assert (Hl : (tree F ∪ fst r) !! (s ++ c :: rel) = None).
      { apply lookup_union_None. split; [assumption|].
        destruct (fst r !! (s ++ c :: rel)) as [x|] eqn:Hx; [|reflexivity].
        exfalso. exact (Hnot _ _ Hx (c :: rel) eq_refl). }
      rewrite Hl.
      destruct (fst r !! (t ++ c :: rel)) as [x|] eqn:Hx; [|reflexivity].
      exfalso. destruct (Hb _ _ Hx) as (c2 & rel2 & n2 & Heq & Hn2).
      apply app_inv_head in Heq. rewrite <- Heq in Hn2. congruence.
Qed.


Lemma plain_full (P : Path) (F : fs) :
  plain P = true -> full P F = base P F ++ [name P].
Proof.
  unfold plain, full. intros H. apply negb_true_iff in H.
  apply orb_false_iff in H. destruct H as [H _].
  apply orb_false_iff in H. destruct H as [H _].
  rewrite H. reflexivity.
Qed.

Lemma parent_place (S D : Path) (F : fs) : parent (place S D F) = base D F.
Proof. unfold place. apply parent_app_last. Qed.

Lemma place_not_root (S D : Path) (F : fs) : place S D F <> [].
Proof. unfold place. destruct (base D F); discriminate. Qed.

Lemma place_cwd (S D : Path) (F F' : fs) : cwd F' = cwd F -> place S D F' = place S D F.
Proof. intros H. unfold place. rewrite (base_cwd D F F' H). reflexivity. Qed.

(** What a copy that ends well has made: the source is there, the
    place of the copy has the same contents, and the destination
    exists in a directory. *)
Lemma copyTo_ok (S D : Path) (F F' : fs) :
  well_formed F ->
  File_exists D F = Some false ->
  copyTo S D F = (true, F') ->
  keeps F F' /\ cwd F' = cwd F
  /\ exists s,
      target S F = Some s
      /\ same_contents s (place S D F) F'
      /\ exists t,
          target D F' = Some t /\ exists_ t F' = true
          /\ is_dir (parent t) F' = true.
Proof.
  intros Hwf He H.
  pose proof (copyTo_keeps S D F He) as (Hk & Hcw & _).
  rewrite H in Hk, Hcw. simpl in Hk, Hcw.
  split; [assumption|]. split; [assumption|].
  unfold copyTo in H. rewrite He in H. cbn [andb orb] in H.
  pose proof (copy_place S D F) as [Hplace Hbase]. cbv zeta in Hplace, Hbase.
  set (D' := if Str.is_empty (name D) then set_name (fileName S) D else D) in *.
  destruct (negb (plain D') || no_name_at_all S)%bool eqn:Hg; [discriminate|].
  apply orb_false_iff in Hg. destruct Hg as [Hplain _].
  apply negb_false_iff in Hplain.
  pose proof (place_free S D F Hwf He Hplain) as [Hfree Hdirimp].
  pose proof (place_not_root S D F) as Hnr.
  rewrite Hplace, Hbase in H.
  destruct (target S F) as [s|] eqn:HtS; [|discriminate].
  exists s. split; [reflexivity|].
  destruct s as [|c0 s0].
  - (* the root as source: a destination below it *)
    destruct (File_createDirectories D' F) as [[|] F1]; discriminate.
  - destruct (tree F !! (c0 :: s0)) as [[a m|ino data]|] eqn:Hsrc; [| |discriminate].
    + (* a directory *)
      destruct (File_createDirectories D' F) as [[|] F1] eqn:Hcd; [|discriminate].
      destruct (is_prefix (c0 :: s0) (place S D F)) eqn:Hpre; [discriminate|].
      injection H as <-.
      pose proof (File_createDirectories_frame _ _ _ _ Hcd) as (Hc & _ & Hp).
      rewrite (plain_full D' F Hplain), Hplace in Hp.
      pose proof (File_createDirectories_wf _ _ _ _ Hwf Hcd) as Hwf1.
      pose proof (File_createDirectories_keeps _ _ _ _ Hcd) as Hk1.
      destruct (Hk1 _ _ Hsrc) as (a1 & m1 & Hs1).
      assert (Hex1 : exists_ (place S D F) F1 = true).
      { pose proof (File_createDirectories_exists _ _ _ Hcd) as Hx.
        unfold File_exists in Hx. destruct (no_name_at_all D'); [discriminate|].
        rewrite (plain_target D' F1 Hplain), (base_cwd D' F F1 Hc), Hplace in Hx.
        injection Hx as Hx. exact Hx. }
      assert (Ht1 : exists a' m', tree F1 !! place S D F = Some (Dir a' m')).
      { destruct (Hp (place S D F)) as [Heq|(_ & Hd & _)]; [|assumption].
        apply exists_true in Hex1. destruct Hex1 as [?|[n Hn]]; [contradiction|].
        congruence. }
      destruct Ht1 as (a' & m' & Ht1).
      assert (Htf : is_dir (place S D F) F = false).
      { unfold is_dir. destruct (place S D F); [contradiction|].
        rewrite Hfree. reflexivity. }
      assert (Hbelow : forall c rel, tree F1 !! (place S D F ++ c :: rel) = None).
      { intros c rel. destruct (Hp (place S D F ++ c :: rel)) as [Heq|(_ & _ & r & Hr)].
        - rewrite Heq. apply wf_nothing_below; [assumption|assumption|discriminate].
        - exfalso. apply (f_equal (@length string)) in Hr.
          rewrite !length_app in Hr. simpl in Hr. lia. }
      pose proof (copy_below_keeps (c0 :: s0) (place S D F) F1) as [Hk2 _].
      split; [exact (dir_copy_same F1 _ _ _ _ _ _ Hs1 Ht1 Hpre Hbelow)|].
      assert (Hpd : is_dir (base D F) F1 = true).
      { rewrite <- (parent_place S D F). apply wf_parent_exists; assumption. }
      destruct (Str.is_empty (name D)) eqn:Hn.
      * exists (base D F).
        split; [rewrite (target_no_name D _ Hn); f_equal; apply base_cwd; assumption|].
        split; [apply dir_exists, (keeps_is_dir _ _ _ Hk2 Hpd)|].
        apply (keeps_is_dir _ _ _ Hk2). apply wf_parent_exists; [assumption|].
        apply dir_exists. assumption.
      * exists (place S D F).
        split.
        { subst D'. rewrite (plain_target D _ Hplain).
          rewrite (base_cwd D F _ Hcw). unfold place. rewrite Hn. reflexivity. }
        split; [exact (keeps_exists _ _ _ Hk2 Hex1)|].
        rewrite parent_place. exact (keeps_is_dir _ _ _ Hk2 Hpd).
    + (* a regular file *)
      destruct (is_dir (base D F) F) eqn:Hd; [|discriminate].
      destruct (Hdirimp eq_refl) as [Hn HtD].
      rewrite Hfree in H. injection H as <-.
      split.
      * eapply file_copy_same; try eassumption; [discriminate| |reflexivity].
        rewrite parent_place. assumption.
      * exists (place S D F).
        split; [exact (target_keeps D F _ _ Hk Hcw HtD)|].
        split; [apply exists_true; right; simpl; rewrite lookup_insert_eq; eauto|].
        rewrite parent_place. exact (keeps_is_dir _ _ _ Hk Hd).
Qed.

End PocoFacts.

(** ** The file-transfer handler *)

Lemma two_devices_well_formed : FS.well_formed two_devices.
Proof.
  assert (H : map_Forall (fun p _ => FS.is_dir (FS.parent p) two_devices = true)
                         (FS.tree two_devices)).
  { apply map_Forall_to_list. vm_compute. repeat constructor. }
  exact H.
Qed.

Lemma one_device_well_formed : FS.well_formed one_device.
Proof.
  assert (H : map_Forall (fun p _ => FS.is_dir (FS.parent p) one_device = true)
                         (FS.tree one_device)).
  { apply map_Forall_to_list. vm_compute. repeat constructor. }
  exact H.
Qed.

Section TransferFacts.
Import FS FileTransfer.

Variable linux : bool.

Lemma link_to_existing (src dst : path) (F : fs) :
  exists_ dst F = true -> link src dst F = None.
Proof.
  intros H. unfold link. destruct (tree F !! src) as [[?|? ?]|]; try reflexivity.
  rewrite H. reflexivity.
Qed.

(** Nothing is done for a destination that exists under an existing
    parent: the answer is "OK" without a look at the source. *)
Lemma transfer_of_existing_destination command src dst F :
  LOOLProtocol.StringTokenizer command " " = [src; dst] ->
  File_exists (parsePath (home F) dst) F = Some true ->
  File_exists (makeParent (parsePath (home F) dst)) F = Some true ->
  transferFile linux command F = (OK, F).
Proof.
  intros Htok Hd Hp. unfold transferFile. rewrite Htok.
  set (S := parsePath (home F) src). set (D := parsePath (home F) dst) in *.
  unfold File_createDirectories. rewrite Hp.
  assert (Hl : linkNames S D F = None).
  { unfold linkNames. destruct (plain S && plain D)%bool eqn:Hpl; [|reflexivity].
    apply andb_true_iff in Hpl. destruct Hpl as [_ Hpl].
    apply link_to_existing.
    unfold File_exists in Hd. destruct (no_name_at_all D); [discriminate|].
    rewrite (plain_target D F Hpl) in Hd. injection Hd as Hd. exact Hd. }
  rewrite Hl. destruct linux; rewrite Hd; reflexivity.
Qed.

(** What an answer "OK" tells. *)
Lemma transfer_ok_inv command src dst F F' :
  LOOLProtocol.StringTokenizer command " " = [src; dst] ->
  well_formed F ->
  transferFile linux command F = (OK, F') ->
  let S := parsePath (home F) src in
  let D := parsePath (home F) dst in
  exists F1,
    File_createDirectories (makeParent D) F = (true, F1)
    /\ keeps F F' /\ cwd F' = cwd F /\ home F' = home F
    /\ File_exists (makeParent D) F' = Some true
    /\ File_exists D F' = Some true
    /\ (exists t, target D F' = Some t /\ exists_ t F' = true
                  /\ is_dir (parent t) F' = true)
    /\ (File_exists D F1 = Some true -> F' = F1)
    /\ (File_exists D F1 = Some false ->
        exists s, target S F' = Some s /\ same_contents s (place S D F) F').
Proof.
  intros Htok Hwf Hok S D. unfold transferFile in Hok. rewrite Htok in Hok.
  fold S D in Hok.
  destruct (File_createDirectories (makeParent D) F) as [[|] F1] eqn:Hcd; [|discriminate].
  exists F1. split; [reflexivity|].
  pose proof (File_createDirectories_frame _ _ _ _ Hcd) as (Hc1 & Hh1 & _).
  pose proof (File_createDirectories_keeps _ _ _ _ Hcd) as Hk1.
  pose proof (File_createDirectories_wf _ _ _ _ Hwf Hcd) as Hwf1.
  pose proof (File_createDirectories_exists _ _ _ Hcd) as HP1.
  (* the destination is looked up in the tree the directories were made in *)
  assert (HB : match File_exists D F1 with
               | None => (ExceptionText, F1)
               | Some true => (OK, F1)
               | Some false =>
                   match copyTo S D F1 with
                   | (true, F3) => (OK, F3)
                   | (false, F3) => (ExceptionText, F3)
                   end
               end = (OK, F') ->
          keeps F F' /\ cwd F' = cwd F /\ home F' = home F
          /\ File_exists (makeParent D) F' = Some true
          /\ File_exists D F' = Some true
          /\ (exists t, target D F' = Some t /\ exists_ t F' = true
                        /\ is_dir (parent t) F' = true)
          /\ (File_exists D F1 = Some true -> F' = F1)
          /\ (File_exists D F1 = Some false ->
              exists s, target S F' = Some s /\ same_contents s (place S D F) F')).
  { destruct (File_exists D F1) as [[|]|] eqn:He; [| |discriminate].
    - intros [= <-].
      split; [assumption|]. split; [assumption|]. split; [assumption|].
      split; [assumption|]. split; [assumption|].
      split; [|split; [reflexivity|discriminate]].
      unfold File_exists in He. destruct (no_name_at_all D); [discriminate|].
      destruct (target D F1) as [t|]; [|discriminate]. injection He as He.
      exists t. split; [reflexivity|]. split; [assumption|].
      apply wf_parent_exists; assumption.
    - pose proof (copyTo_keeps S D F1 He) as (_ & _ & Hh3).
      destruct (copyTo S D F1) as [[|] F3] eqn:Hcp; [|discriminate].
      intros [= <-]. simpl in Hh3.
      destruct (copyTo_ok S D F1 F3 Hwf1 He Hcp)
        as (Hk3 & Hc3 & s & HtS & Hsame & t & HtD & Hex & Hdir).
      split; [exact (keeps_trans _ _ _ Hk1 Hk3)|].
      split; [congruence|]. split; [congruence|].
      split; [exact (File_exists_keeps _ _ _ Hk3 Hc3 HP1)|].
      split.
      { apply not_exists_inv in He. destruct He as [He _].
        unfold File_exists. rewrite He, HtD, Hex. reflexivity. }
      split; [exists t; auto|].
      split; [discriminate|]. intros _.
      exists s. split; [exact (target_keeps S F1 F3 s Hk3 Hc3 HtS)|].
      rewrite <- (place_cwd S D F F1 Hc1). assumption. }
  destruct linux; [|exact (HB Hok)].
  destruct (linkNames S D F1) as [F2|] eqn:Hl; [|exact (HB Hok)].
  clear HB.
  apply linkNames_inv in Hl. destruct Hl as (HpS & HpD & Hl).
  pose proof (link_keeps _ _ _ _ Hl) as Hk2.
  apply link_inv in Hl.
  destruct Hl as (ino & data & Hsrc & Hne & Hfree & Hdir & _ & ->).
  set (t := base D F1 ++ [name D]) in *.
  set (F2 := set_tree (<[t := File ino data]> (tree F1)) F1) in *.
  assert (Hex2 : exists_ t F2 = true).
  { apply exists_true. right. simpl. rewrite lookup_insert_eq. eauto. }
  assert (HD2 : File_exists D F2 = Some true).
  { unfold File_exists. rewrite (plain_not_empty D HpD).
    rewrite (plain_target D F2 HpD). fold t in Hex2. f_equal. exact Hex2. }
  rewrite HD2 in Hok. injection Hok as <-.
  split; [exact (keeps_trans _ _ _ Hk1 Hk2)|].
  split; [assumption|]. split; [assumption|].
  split; [exact (File_exists_keeps _ F1 F2 Hk2 eq_refl HP1)|].
  split; [assumption|].
  split.
  { exists t. split; [exact (plain_target D F2 HpD)|]. split; [assumption|].
    exact (keeps_is_dir _ _ _ Hk2 Hdir). }
  assert (HD1 : File_exists D F1 = Some false).
  { unfold File_exists. rewrite (plain_not_empty D HpD), (plain_target D F1 HpD).
    f_equal. apply exists_false. split; assumption. }
  split; [rewrite HD1; discriminate|]. intros _.
  exists (base S F1 ++ [name S]).
  split; [exact (plain_target S F2 HpS)|].
  assert (Hpl : place S D F = t).
  { unfold place, t. rewrite (base_cwd D F F1 Hc1).
    unfold plain in HpD. apply negb_true_iff in HpD.
    apply orb_false_iff in HpD. destruct HpD as [HpD _].
    apply orb_false_iff in HpD. destruct HpD as [HpD _].
    rewrite HpD. reflexivity. }
  rewrite Hpl.
  eapply (file_copy_same F1 F2); try eassumption; [|reflexivity].
  destruct (base S F1); discriminate.
Qed.


End TransferFacts.



(** ** Further facts and scenarios *)

Section QueueHandlerFacts.
Import Master.

Variable handleInput : list string -> string -> bool.
Variable stack : Z.

(** [QueueHandler::run] leaves its loop at "eof" without handing it to
    [handleInput], and at the first element [handleInput] refuses. *)
Lemma run_at_eof q seen :
  run handleInput ("eof"%string :: q) seen = (Exited, seen, q).
Proof. reflexivity. Qed.

Lemma run_refused input q seen :
  input <> "eof"%string -> handleInput seen input = false ->
  run handleInput (input :: q) seen = (Exited, seen ++ [input], q).
Proof.
  intros Hne Hf. simpl.
  destruct (String.eqb_spec input "eof"); [contradiction|].
  rewrite Hf. reflexivity.
Qed.

Lemma run_accepted input q seen :
  input <> "eof"%string -> handleInput seen input = true ->
  run handleInput (input :: q) seen = run handleInput q (seen ++ [input]).
Proof.
  intros Hne Ht. simpl.
  destruct (String.eqb_spec input "eof"); [contradiction|].
  rewrite Ht. reflexivity.
Qed.

(** One turn of the thread is one turn of [run]. *)
Lemma consumer_step_run W W' :
  consumer_step handleInput W = Some W' ->
  run handleInput (queue W) (inputs W)
  = match consumer W' with
    | Exited => (Exited, inputs W', queue W')
    | _ => run handleInput (queue W') (inputs W')
    end.
Proof.
  unfold consumer_step, handle.
  destruct (consumer W) eqn:Hc; try discriminate.
  destruct (queue W) as [|input q]; simpl; [discriminate|].
  destruct (String.eqb input "eof"); [intros [= <-]; reflexivity|].
  destruct (handleInput (inputs W) input); intros [= <-]; simpl;
    [rewrite Hc|]; reflexivity.
Qed.

End QueueHandlerFacts.

(** The child prunes its queue with the same lambda (lines 873-878),
    and does not hand "canceltiles" on. *)
Lemma child_canceltiles_prunes_tile_prefix W flags frame :
  Child.state W = Child.Receiving ->
  WebSocket.data_frame (Str.size frame) flags = true ->
  Str.size frame <= 1024 ->
  single_line frame = true ->
  Master.is_canceltiles (tokens_of frame) = true ->
  Child.queue (Child.receiver_step W (WebSocket.Frame flags frame))
  = List.filter (fun x => negb (Master.cancellable x)) (Child.queue W).
Proof.
  intros Hst Hdata Hle Hline Hc.
  rewrite child_receiver_step_fits by assumption.
  rewrite Hline, Hc. simpl. apply remove_if_filter.
Qed.

(** When no child session is available and none is pending, the loop
    body forks one component and records it. *)
Lemma reaper_spawns_one P w pid :
  Supervisor.availableChildSessions P = 0%nat ->
  Supervisor.pendingPreSpawned P = 0%nat ->
  let r := Supervisor.reaper_iteration P w (Supervisor.InParent pid) in
  fst r = true
  /\ Supervisor.childProcesses (snd r) = <[pid := pid]> (Supervisor.childProcesses P)
  /\ Supervisor.pendingPreSpawned (snd r) = 1%nat.
Proof.
  intros Ha Hp. unfold Supervisor.reaper_iteration.
  set (P1 := if ((Supervisor.w_pid w <? 0) && Supervisor.w_echild w)%bool
             then Supervisor.print _ P else P).
  assert (H1 : Supervisor.availableChildSessions P1 = 0%nat
               /\ Supervisor.pendingPreSpawned P1 = 0%nat
               /\ Supervisor.childProcesses P1 = Supervisor.childProcesses P).
  { subst P1. destruct (_ && _)%bool; simpl; auto. }
  clearbody P1. destruct H1 as (Ha1 & Hp1 & Ht1).
  set (P2 := if Supervisor.known_child_died P1 w
             then Supervisor.print _ P1 else P1).
  assert (H2 : Supervisor.availableChildSessions P2 = 0%nat
               /\ Supervisor.pendingPreSpawned P2 = 0%nat
               /\ Supervisor.childProcesses P2 = Supervisor.childProcesses P).
  { subst P2. destruct (Supervisor.known_child_died P1 w); simpl; auto. }
  clearbody P2. destruct H2 as (Ha2 & Hp2 & Ht2).
  rewrite Ha2, Hp2. simpl. rewrite Hp2, Ht2. auto.
Qed.

(** Scenario "cancel fast path": two tiles without id, one with an id,
    then "canceltiles"; the receiver alone. *)
Example scenario_cancel_fast_path :
  let h := fun (_ : list string) (_ : string) => true in
  let W := Master.receive_all h example_stack Master.ToClient
             [WebSocket.Frame WebSocket.FRAME_TEXT "tile part=0 x=0 y=0 width=256 height=256";
              WebSocket.Frame WebSocket.FRAME_TEXT "tile part=0 x=256 y=0 width=256 height=256";
              WebSocket.Frame WebSocket.FRAME_TEXT "tile part=0 x=0 y=0 id=7";
              WebSocket.Frame WebSocket.FRAME_TEXT "canceltiles"]
             (Master.start Master.ToClient) in
  Master.queue W = ["tile part=0 x=0 y=0 id=7"]%string
  /\ Master.inputs W = ["canceltiles"]%string.
Proof. vm_compute. split; reflexivity. Qed.

(** The same frames at a child, followed by a close frame. *)
Example scenario_child_loop :
  Child.componentMain_loop
    [WebSocket.Frame WebSocket.FRAME_TEXT "tile part=0 x=0 y=0 width=256 height=256";
     WebSocket.Frame WebSocket.FRAME_TEXT "tile part=0 x=0 y=0 id=7";
     WebSocket.Frame WebSocket.FRAME_TEXT "canceltiles";
     WebSocket.Frame WebSocket.FRAME_TEXT "key type=input char=97";
     WebSocket.Frame 136 EmptyString]
    (Child.mkWorld [] Child.Receiving)
  = Child.mkWorld ["eof"%string] Child.LoopLeft.
Proof. vm_compute. reflexivity. Qed.

(** A session that ends by a close frame, the receiver alone. *)
Example scenario_close :
  let h := fun (_ : list string) (_ : string) => true in
  let W := Master.handleRequest h example_stack Master.ToClient
             [WebSocket.Frame WebSocket.FRAME_TEXT "status";
              WebSocket.Frame 136 EmptyString]
             (Master.start Master.ToClient) in
  Master.queue W = ["eof"]%string /\ Master.receiver W = Master.AtJoin.
Proof. vm_compute. split; reflexivity. Qed.

(* ===================================================================== *)
(** * Further properties of the code *)
(* ===================================================================== *)

(** ** The receive loop and the queue handler together *)

Lemma single_line_whole (frame : string) :
  single_line frame = true -> LOOLProtocol.getFirstLine frame = frame.
Proof.
  unfold single_line, Str.size. rewrite Z.eqb_eq, Nat2Z.inj_iff.
  induction frame as [|c frame IH]; simpl; [reflexivity|].
  destruct (Ascii.eqb c LOOLProtocol.LF); simpl; [discriminate|].
  intros H. f_equal. apply IH. lia.
Qed.

Lemma getFirstLine_no_LF (message : string) :
  ~ In LOOLProtocol.LF (list_ascii_of_string (LOOLProtocol.getFirstLine message)).
Proof.
  induction message as [|c message IH]; simpl; [tauto|].
  destruct (Ascii.eqb_spec c LOOLProtocol.LF) as [->|Hne]; simpl; [tauto|].
  intros [H|H]; [congruence | contradiction].
Qed.

Lemma receiveFrame_inv capacity w n flags buffer :
  WebSocket.receiveFrame capacity w = WebSocket.Received n flags buffer ->
  w = WebSocket.Frame flags buffer /\ n = Str.size buffer /\ n <= capacity.
Proof.
  unfold WebSocket.receiveFrame. destruct w as [fl payload|e]; [|discriminate].
  destruct (Z.leb_spec (Str.size payload) capacity); [|discriminate].
  intros [= <- <- <-]. auto.
Qed.

Lemma remove_if_Forall (P : string -> Prop) (p : string -> bool) (q : tsqueue.t) :
  Forall P q -> Forall P (tsqueue.remove_if p q).
Proof.
  induction 1 as [|x q Hx Hq IH]; simpl; [constructor|].
  destruct (p x); [assumption | constructor; assumption].
Qed.

Lemma remove_if_none_left (p : string -> bool) (q : tsqueue.t) :
  Forall (fun x => p x = false) (tsqueue.remove_if p q).
Proof.
  induction q as [|x q IH]; simpl; [constructor|].
  destruct (p x) eqn:Hp; [assumption | constructor; assumption].
Qed.

Lemma remove_if_fixed (p : string -> bool) (q : tsqueue.t) :
  Forall (fun x => p x = false) q -> tsqueue.remove_if p q = q.
Proof.
  induction 1 as [|x q Hx Hq IH]; simpl; [reflexivity|].
  rewrite Hx, IH. reflexivity.
Qed.

Section LoopAndHandler.
Import WebSocket Master.

Variable handleInput : list string -> string -> bool.
Variable stack : Z.

Lemma receive_all_lines l : forall W,
  receiver W = AtReceive ->
  Forall (fun f => ordinary_line (fst f) (snd f) = true) l ->
  receive_all handleInput stack ToClient (frames l) W
  = set_queue (queue W ++ List.map snd l) W.
Proof.
  induction l as [|[fl fr] l IH]; intros W Hpc Hall; simpl.
  - rewrite app_nil_r. destruct W; reflexivity.
  - inversion Hall as [|f l' Hf Hl]; subst. simpl in Hf.
    unfold ordinary_line in Hf.
    apply andb_true_iff in Hf. destruct Hf as [Hf Hnc].
    apply andb_true_iff in Hf. destruct Hf as [Harr Hline].
    apply negb_true_iff in Hnc.
    unfold receive_all in *. simpl.
    rewrite receiver_step_at_receive by assumption.
    rewrite Hline, Hnc. simpl.
    rewrite (single_line_whole _ Hline).
    rewrite IH by assumption. unfold set_queue, tsqueue.put. simpl.
    rewrite <- app_assoc. reflexivity.
Qed.

Lemma run_in_order pre : forall seen,
  Forall (fun x => x <> "eof"%string) pre ->
  accepts_all handleInput seen pre ->
  run handleInput pre seen = (Running, seen ++ pre, [])
  /\ forall post,
      run handleInput (pre ++ "eof"%string :: post) seen
      = (Exited, seen ++ pre, post).
Proof.
  induction pre as [|x pre IH]; intros seen Hne Hacc; simpl.
  - rewrite app_nil_r. auto.
  - inversion Hne as [|y l Hx Hpre]; subst. destruct Hacc as [Hx' Hacc].
    destruct (String.eqb_spec x "eof"); [contradiction|].
    rewrite Hx'. destruct (IH (seen ++ [x]) Hpre Hacc) as [H1 H2].
    rewrite <- app_assoc in H1. simpl in H1.
    split; [assumption|]. intros post. rewrite H2, <- app_assoc. reflexivity.
Qed.

(** X1: on a ToClient session, one-line frames other than
    "canceltiles" are put on the work queue in the order they arrive;
    the receiver hands none of them to [handleInput] and stays in its
    loop. *)
Theorem client_lines_are_queued_in_order l W :
  receiver W = AtReceive ->
  Forall (fun f => ordinary_line (fst f) (snd f) = true) l ->
  let W' := receive_all handleInput stack ToClient (frames l) W in
  queue W' = queue W ++ List.map snd l
  /\ inputs W' = inputs W
  /\ receiver W' = AtReceive
  /\ consumer W' = consumer W.
Proof.
  intros Hpc Hall W'. subst W'. rewrite receive_all_lines by assumption.
  simpl. auto.
Qed.

(** X2: the queue handler hands the elements of the queue to
    [handleInput] in their order for as long as it accepts them; it
    leaves its loop at the first "eof", which it does not hand over,
    and what is queued behind that "eof" stays in the queue. *)
Theorem run_hands_over_in_order_until_eof pre post seen :
  Forall (fun x => x <> "eof"%string) pre ->
  accepts_all handleInput seen pre ->
  run handleInput pre seen = (Running, seen ++ pre, [])
  /\ run handleInput (pre ++ "eof"%string :: post) seen
     = (Exited, seen ++ pre, post).
Proof.
  intros Hne Hacc. destruct (run_in_order pre seen Hne Hacc) as [H1 H2].
  split; [exact H1 | apply H2].
Qed.

(** X3: "eof" is not reserved: when a client sends the one-line frame
    "eof" among other lines, the receiver queues it like any line, and
    the queue handler, having handed over the lines before it, leaves
    its loop there; the lines the client sent after it stay in the
    queue and are not handled. *)
Theorem client_eof_line_stops_the_handler pre flags post W :
  receiver W = AtReceive ->
  queue W = [] ->
  Forall (fun f => ordinary_line (fst f) (snd f) = true) pre ->
  ordinary_line flags "eof" = true ->
  Forall (fun f => ordinary_line (fst f) (snd f) = true) post ->
  Forall (fun x => x <> "eof"%string) (List.map snd pre) ->
  accepts_all handleInput (inputs W) (List.map snd pre) ->
  let W' := receive_all handleInput stack ToClient
              (frames (pre ++ (flags, "eof"%string) :: post)) W in
  receiver W' = AtReceive
  /\ run handleInput (queue W') (inputs W')
     = (Exited, inputs W ++ List.map snd pre, List.map snd post).
Proof.
  intros Hpc Hq Hpre Heof Hpost Hne Hacc W'. subst W'.
  rewrite receive_all_lines; [|assumption|].
  - simpl. split; [assumption|]. rewrite Hq. simpl.
    rewrite List.map_app. simpl.
    apply (run_in_order (List.map snd pre) (inputs W) Hne Hacc).
  - apply Forall_app. split; [assumption|]. constructor; assumption.
Qed.

(** X4: after "canceltiles" on a ToClient session no element of the
    queue begins with [tile ] and lacks [id=], and a second
    "canceltiles" right after it leaves the queue as it is. *)
Theorem nothing_cancellable_is_left W flags frame flags2 frame2 :
  receiver W = AtReceive ->
  canceltiles_frame flags frame = true ->
  canceltiles_frame flags2 frame2 = true ->
  let W1 := receiver_step handleInput stack ToClient W (Frame flags frame) in
  let W2 := receiver_step handleInput stack ToClient W1 (Frame flags2 frame2) in
  Forall (fun x => cancellable x = false) (queue W1)
  /\ queue W2 = queue W1
  /\ inputs W2 = inputs W ++ [frame; frame2].
Proof.
  intros Hpc Hf Hf2 W1 W2.
  assert (Hstep : forall V fl fr, receiver V = AtReceive ->
            canceltiles_frame fl fr = true ->
            receiver_step handleInput stack ToClient V (Frame fl fr)
            = mkWorld (tsqueue.remove_if cancellable (queue V))
                      (inputs V ++ [fr]) AtReceive (consumer V)).
  { intros V fl fr HV Hc. unfold canceltiles_frame in Hc.
    apply andb_true_iff in Hc. destruct Hc as [Hc Hcancel].
    apply andb_true_iff in Hc. destruct Hc as [Harr Hline].
    rewrite receiver_step_at_receive by assumption.
    rewrite Hline, Hcancel. simpl. unfold handle. simpl. rewrite HV.
    reflexivity. }
  subst W2 W1. rewrite (Hstep W flags frame Hpc Hf).
  rewrite Hstep by (reflexivity || assumption). simpl.
  split; [apply remove_if_none_left|].
  split; [apply remove_if_fixed, remove_if_none_left|].
  rewrite <- app_assoc. reflexivity.
Qed.

End LoopAndHandler.

Lemma client_lines_are_queued_in_order_witness :
  Master.queue
    (Master.receive_all (fun _ _ => true) example_stack Master.ToClient
       (frames [(129, "status"%string); (129, "tile part=0 x=0"%string)])
       (Master.start Master.ToClient))
  = ["status"; "tile part=0 x=0"]%string.
Proof.
  destruct (client_lines_are_queued_in_order (fun _ _ => true) example_stack
              [(129, "status"%string); (129, "tile part=0 x=0"%string)]
              (Master.start Master.ToClient) eq_refl) as [H _].
  - repeat constructor.
  - exact H.
Defined.

Lemma run_hands_over_in_order_until_eof_witness :
  Master.run (fun _ _ => true) ["status"; "key"; "eof"; "late"]%string []
  = (Master.Exited, ["status"; "key"]%string, ["late"%string]).
Proof.
  destruct (run_hands_over_in_order_until_eof (fun _ _ => true)
              ["status"; "key"]%string ["late"%string] []) as [_ H].
  - repeat constructor; discriminate.
  - simpl. auto.
  - exact H.
Defined.

Lemma client_eof_line_stops_the_handler_witness :
  let h := fun (_ : list string) (_ : string) => true in
  let W' := Master.receive_all h example_stack Master.ToClient
              (frames [(129, "status"%string); (129, "eof"%string);
                       (129, "key type=input"%string)])
              (Master.start Master.ToClient) in
  Master.run h (Master.queue W') (Master.inputs W')
  = (Master.Exited, ["status"%string], ["key type=input"%string]).
Proof.
  intros h W'.
  destruct (client_eof_line_stops_the_handler h example_stack
              [(129, "status"%string)] 129 [(129, "key type=input"%string)]
              (Master.start Master.ToClient) eq_refl eq_refl) as [_ H].
  - repeat constructor.
  - reflexivity.
  - repeat constructor.
  - repeat constructor; discriminate.
  - simpl. auto.
  - exact H.
Defined.

Lemma nothing_cancellable_is_left_witness :
  let h := fun (_ : list string) (_ : string) => true in
  let W := Master.mkWorld ["tile part=0 x=0"; "tile part=0 id=7"]%string []
             Master.AtReceive Master.Running in
  let W1 := Master.receiver_step h example_stack Master.ToClient W
              (WebSocket.Frame 129 "canceltiles") in
  let W2 := Master.receiver_step h example_stack Master.ToClient W1
              (WebSocket.Frame 129 " canceltiles") in
  Master.queue W2 = Master.queue W1.
Proof.
  intros h W W1 W2.
  destruct (nothing_cancellable_is_left h example_stack W 129 "canceltiles" 129 " canceltiles"
              eq_refl eq_refl eq_refl) as (_ & H & _).
  exact H.
Defined.

Section QueueInvariants.
Import WebSocket Master.

Variable handleInput : list string -> string -> bool.
Variable stack : Z.

(** What one turn of the receiver can do to the queue. *)
Lemma receiver_step_queue kind W w :
  let W' := receiver_step handleInput stack kind W w in
  (receiver W' = AtPutEof /\ queue W' = [])
  \/ queue W' = queue W
  \/ (kind = ToClient
      /\ (queue W' = tsqueue.remove_if cancellable (queue W)
          \/ exists buffer,
              Str.size buffer <= 100000
              /\ queue W' = queue W ++ [LOOLProtocol.getFirstLine buffer])).
Proof.
  unfold receiver_step, handle, clear_queue, largeBuffer, set_receiver, set_queue.
  destruct (receiver W) eqn:Hpc; simpl; auto.
  - destruct (receiveFrame 100000 w) as [n flags buffer|e] eqn:Hrf; simpl; auto.
    apply receiveFrame_inv in Hrf. destruct Hrf as (-> & -> & Hle).
    destruct (data_frame _ flags); simpl; auto.
    destruct kind; simpl;
      repeat match goal with
             | |- context [match ?x with _ => _ end] => destruct x; simpl; auto
             end;
      right; right; (split; [reflexivity|]);
      first [left; reflexivity | right; eexists; split; [eassumption|reflexivity]].
  - destruct (receiveFrame size w) as [n flags buffer|e]; simpl; auto.
    repeat match goal with
           | |- context [match ?x with _ => _ end] => destruct x; simpl; auto
           end.
Qed.

Lemma receiver_step_keeps_lines kind W w :
  Forall (is_line 100000) (queue W) ->
  Forall (is_line 100000) (queue (receiver_step handleInput stack kind W w)).
Proof.
  intros Hq.
  destruct (receiver_step_queue kind W w)
    as [[_ H]|[H|(_ & [H|(buffer & Hle & H)])]]; rewrite H.
  - constructor.
  - assumption.
  - apply remove_if_Forall. assumption.
  - apply Forall_app. split; [assumption|]. constructor; [|constructor].
    split; [apply getFirstLine_no_LF|].
    pose proof (getFirstLine_size buffer). lia.
Qed.

Lemma consumer_step_takes_head W W' :
  consumer_step handleInput W = Some W' ->
  exists input,
    queue W = input :: queue W'
    /\ (inputs W' = inputs W
        \/ (input <> "eof"%string /\ inputs W' = inputs W ++ [input])).
Proof.
  unfold consumer_step, handle.
  destruct (consumer W); try discriminate.
  destruct (queue W) as [|input q']; simpl; [discriminate|].
  destruct (String.eqb_spec input "eof") as [->|Hne].
  - intros [= <-]. simpl. eauto.
  - destruct (handleInput (inputs W) input); intros [= <-]; simpl; eauto.
Qed.

Lemma eof_is_line : is_line 100000 "eof".
Proof.
  split; [|vm_compute; discriminate].
  simpl. intros [H|[H|[H|[]]]]; discriminate.
Qed.

Lemma sys_step_keeps_lines kind W W' :
  Forall (is_line 100000) (queue W) ->
  sys_step handleInput stack kind W W' ->
  Forall (is_line 100000) (queue W').
Proof.
  intros Hq Hstep. destruct Hstep as [W w _|W _|W W' _ Hc].
  - apply receiver_step_keeps_lines. assumption.
  - unfold put_eof, tsqueue.put. simpl. apply Forall_app.
    split; [assumption|]. constructor; [apply eof_is_line|constructor].
  - apply consumer_step_takes_head in Hc. destruct Hc as (input & Hin & _).
    rewrite Hin in Hq. inversion Hq; assumption.
Qed.

(** X5: whatever the interleaving of receiver and queue handler, the
    work queue holds only lines: no element has a line feed in it or
    more than 100000 bytes.  So every message the queue handler hands
    to [handleInput] is such a line, and it is never "eof". *)
Theorem queue_holds_only_lines kind W0 W :
  Forall (is_line 100000) (queue W0) ->
  rtc (sys_step handleInput stack kind) W0 W ->
  Forall (is_line 100000) (queue W)
  /\ forall W',
      consumer_step handleInput W = Some W' ->
      inputs W' = inputs W
      \/ exists x, inputs W' = inputs W ++ [x]
                   /\ is_line 100000 x /\ x <> "eof"%string.
Proof.
  intros H0 Hsteps.
  assert (Hq : Forall (is_line 100000) (queue W)).
  { induction Hsteps as [W|W0 W1 W Hstep Hsteps IH]; [assumption|].
    apply IH. eapply sys_step_keeps_lines; eassumption. }
  split; [assumption|].
  intros W' Hc. apply consumer_step_takes_head in Hc.
  destruct Hc as (input & Hin & [Hi|[Hne Hi]]); [left; assumption|].
  right. exists input. rewrite Hin in Hq. inversion Hq; subst. auto.
Qed.

(** X6: a session that is not ToClient never puts a frame on the work
    queue: while its receiver is in the loop the queue is as it was,
    and so it is when the process is killed at the large buffer; when
    the loop is left the queue was cleared and, at the end of
    [handleRequest], holds "eof" alone. *)
Theorem other_sessions_never_queue kind script W :
  Kind_eqb kind ToClient = false ->
  receiving W ->
  let W' := receive_all handleInput stack kind script W in
  ((receiving W' /\ queue W' = queue W)
   \/ (receiver W' = AtPutEof /\ queue W' = [])
   \/ (receiver W' = Killed /\ queue W' = queue W))
  /\ (queue (handleRequest handleInput stack kind script W) = queue W
      \/ queue (handleRequest handleInput stack kind script W) = ["eof"%string]).
Proof.
  intros Hk Hr W'.
  assert (Hmain : (receiving W' /\ queue W' = queue W)
                  \/ (receiver W' = AtPutEof /\ queue W' = [])
                  \/ (receiver W' = Killed /\ queue W' = queue W)).
  { subst W'. revert W Hr. induction script as [|w script IH]; intros W Hr.
    - left. split; [assumption|reflexivity].
    - unfold receive_all in *. simpl.
      destruct (receiver_step_next handleInput stack kind W w Hr) as [Hr1|[[Hpc Hq]|Hpc]].
      + destruct (receiver_step_queue kind W w) as [[Hpc _]|[H|(Hkind & _)]].
        * unfold receiving in Hr1. rewrite Hpc in Hr1. contradiction.
        * rewrite <- H. apply IH. assumption.
        * subst kind. discriminate.
      + right. left.
        fold (receive_all handleInput stack kind script (receiver_step handleInput stack kind W w)).
        rewrite receive_all_done; [auto|].
        unfold receiving. rewrite Hpc. tauto.
      + right. right.
        fold (receive_all handleInput stack kind script (receiver_step handleInput stack kind W w)).
        rewrite receive_all_done by (unfold receiving; rewrite Hpc; tauto).
        split; [assumption|].
        destruct (receiver_step_queue kind W w) as [[Hpc' _]|[H|(Hkind & _)]].
        * rewrite Hpc in Hpc'. discriminate.
        * assumption.
        * subst kind. discriminate. }
  split; [assumption|].
  unfold handleRequest. fold W'. unfold finish.
  destruct Hmain as [[Hr' Hq]|[[Hpc Hq]|[Hpc Hq]]].
  - left. unfold receiving in Hr'. destruct (receiver W'); tauto.
  - right. rewrite Hpc. unfold put_eof. simpl. rewrite Hq. reflexivity.
  - left. rewrite Hpc. assumption.
Qed.

End QueueInvariants.

Lemma queue_holds_only_lines_witness :
  let h := fun (_ : list string) (_ : string) => true in
  let frame := String "k" (String "e" (String "y" (String LOOLProtocol.LF "x"))) in
  let W1 := Master.receiver_step h example_stack Master.ToClient (Master.start Master.ToClient)
              (WebSocket.Frame 129 "status") in
  let W2 := Master.receiver_step h example_stack Master.ToClient W1 (WebSocket.Frame 130 frame) in
  Forall (is_line 100000) (Master.queue W2).
Proof.
  intros h frame W1 W2.
  assert (Hsteps : rtc (Master.sys_step h example_stack Master.ToClient)
                       (Master.start Master.ToClient) W2).
  { apply rtc_l with (y := W1); [apply Master.step_receive; left; reflexivity|].
    apply rtc_once. apply Master.step_receive. left. reflexivity. }
  destruct (queue_holds_only_lines h example_stack Master.ToClient (Master.start Master.ToClient) W2
              ltac:(constructor) Hsteps) as [H _].
  exact H.
Defined.

Lemma other_sessions_never_queue_witness :
  let h := fun (_ : list string) (_ : string) => true in
  Master.queue
    (Master.receive_all h example_stack Master.ToPrisoner
       (frames [(129, "tile: part=0 x=0"%string); (129, "status: ready"%string)])
       (Master.start Master.ToPrisoner))
  = [].
Proof.
  intros h.
  destruct (other_sessions_never_queue h example_stack Master.ToPrisoner
              (frames [(129, "tile: part=0 x=0"%string); (129, "status: ready"%string)])
              (Master.start Master.ToPrisoner) eq_refl I) as [[[_ H]|[[_ H]|[_ H]]] _];
    exact H.
Defined.

(** ** The receive loop of a child *)

Lemma child_receiver_step_cases W w :
  let W' := Child.receiver_step W w in
  W' = W
  \/ (Child.state W' = Child.LoopLeft /\ Child.queue W' = ["eof"%string])
  \/ (Child.state W' <> Child.LoopLeft
      /\ (Child.queue W' = Child.queue W
          \/ Child.queue W' = tsqueue.remove_if Master.cancellable (Child.queue W)
          \/ exists buffer,
              Str.size buffer <= 1024
              /\ Master.is_canceltiles (tokens_of buffer) = false
              /\ Child.queue W' = Child.queue W ++ [LOOLProtocol.getFirstLine buffer])).
Proof.
  unfold Child.receiver_step.
  destruct (Child.state W) eqn:Hst; auto.
  destruct (WebSocket.receiveFrame 1024 w) as [n flags buffer|e] eqn:Hrf; simpl.
  - apply receiveFrame_inv in Hrf. destruct Hrf as (-> & -> & Hle).
    destruct (WebSocket.data_frame _ flags); simpl; [|auto].
    right. right.
    destruct (negb _); simpl; [split; [discriminate|auto]|].
    fold (tokens_of buffer).
    destruct (Master.is_canceltiles (tokens_of buffer)) eqn:Hc; simpl;
      (split; [discriminate|]); [auto|].
    right. right. exists buffer. auto.
  - right. right. split; [discriminate|auto].
Qed.

(** X7: the queue of a child holds only lines of at most 1024 bytes
    without a line feed; and when the receive loop of [componentMain]
    has been left through its end (an empty or close frame), the queue
    holds "eof" alone, whatever was pending. *)
Theorem child_queue_holds_lines_then_eof script W0 :
  Forall (is_line 1024) (Child.queue W0) ->
  Child.state W0 = Child.Receiving ->
  let W := Child.componentMain_loop script W0 in
  Forall (is_line 1024) (Child.queue W)
  /\ (Child.state W = Child.LoopLeft -> Child.queue W = ["eof"%string]).
Proof.
  intros Hq Hst W. subst W.
  assert (Hgen : forall W0,
            Forall (is_line 1024) (Child.queue W0) ->
            (Child.state W0 = Child.LoopLeft -> Child.queue W0 = ["eof"%string]) ->
            Forall (is_line 1024) (Child.queue (Child.componentMain_loop script W0))
            /\ (Child.state (Child.componentMain_loop script W0) = Child.LoopLeft ->
                Child.queue (Child.componentMain_loop script W0) = ["eof"%string])).
  { clear. induction script as [|w script IH]; intros W0 Hq Hleft; [auto|].
    unfold Child.componentMain_loop in *. simpl. apply IH.
    - destruct (child_receiver_step_cases W0 w)
        as [->|[[_ H]|[_ [H|[H|(buffer & Hle & _ & H)]]]]]; try rewrite H.
      + assumption.
      + constructor; [|constructor]. split; [|vm_compute; discriminate].
        simpl. intros [E|[E|[E|[]]]]; discriminate.
      + assumption.
      + apply remove_if_Forall. assumption.
      + apply Forall_app. split; [assumption|]. constructor; [|constructor].
        split; [apply getFirstLine_no_LF|].
        pose proof (getFirstLine_size buffer). lia.
    - destruct (child_receiver_step_cases W0 w) as [->|[[_ H]|[Hn _]]].
      + assumption.
      + intros _. assumption.
      + intros Hc. contradiction. }
  apply Hgen; [assumption|]. rewrite Hst. discriminate.
Qed.

Lemma child_queue_holds_lines_then_eof_witness :
  Child.queue
    (Child.componentMain_loop
       (frames [(129, "tile part=0 x=0"%string); (129, "status"%string);
                (136, "bye"%string)])
       (Child.mkWorld [] Child.Receiving))
  = ["eof"%string].
Proof.
  destruct (child_queue_holds_lines_then_eof
              (frames [(129, "tile part=0 x=0"%string); (129, "status"%string);
                       (136, "bye"%string)])
              (Child.mkWorld [] Child.Receiving) ltac:(constructor) eq_refl) as [_ H].
  apply H. reflexivity.
Defined.

(** ** The supervisor, further *)

(** X8: the test on the status word in the reaper loop holds for
    every status: a pid that [waitpid] returns counts as a dead child
    exactly when it is in the child table, also when the child was only
    stopped. *)
Theorem any_status_counts_as_death P w :
  Supervisor.known_child_died P w = true
  <-> is_Some (Supervisor.childProcesses P !! Supervisor.w_pid w).
Proof.
  unfold Supervisor.known_child_died, Supervisor.WIFEXITED.
  destruct (Supervisor.WTERMSIG (Supervisor.w_status w) =? 0); simpl;
    [|rewrite orb_true_r; simpl];
    destruct (Supervisor.childProcesses P !! Supervisor.w_pid w) as [v|];
    split; intros H; try reflexivity; try discriminate; eauto;
    destruct H as [x Hx]; discriminate.
Qed.

(** X9: [startupComponent] calls [fork] for every child asked for: a
    failed fork does not end the loop, because the value
    [createComponent] returns for it is not negative.  Every child
    that a fork gave is in the child table afterwards and counted as
    pending; nothing else in the table changes. *)
Theorem startupComponent_tries_every_fork forks : forall P,
  let P' := Supervisor.startupComponent forks P in
  Supervisor.pendingPreSpawned P'
  = (Supervisor.pendingPreSpawned P + length (List.filter is_child forks))%nat
  /\ (forall pid, In (Supervisor.InParent pid) forks ->
                  Supervisor.childProcesses P' !! pid = Some pid)
  /\ (forall pid, ~ In (Supervisor.InParent pid) forks ->
                  Supervisor.childProcesses P' !! pid
                  = Supervisor.childProcesses P !! pid)
  /\ Supervisor.availableChildSessions P' = Supervisor.availableChildSessions P
  /\ Supervisor.childId P' = Supervisor.childId P.
Proof.
  induction forks as [|f forks IH]; intros P; simpl.
  - repeat split; try lia; tauto.
  - destruct f as [|pid]; simpl.
    + destruct (IH (Supervisor.print "Fork failed." P)) as (Hp & Hin & Hout & Ha & Hc).
      simpl in *. repeat split; try assumption.
      * intros pid [H|H]; [discriminate|]. apply Hin. assumption.
      * intros pid H. apply Hout. tauto.
    + destruct (IH (Supervisor.record_child pid (Supervisor.addPendingChildrem pid P)))
        as (Hp & Hin & Hout & Ha & Hc).
      simpl in *. repeat split; try assumption.
      * rewrite Hp. lia.
      * intros pid' [H|H]; [|apply Hin; assumption].
        injection H as ->.
        assert (Hdec : forall a b : Supervisor.forked, {a = b} + {a <> b})
          by (decide equality; apply Z.eq_dec).
        destruct (in_dec Hdec (Supervisor.InParent pid') forks) as [Hyes|Hno];
          [apply Hin; assumption|].
        rewrite Hout by assumption. apply lookup_insert_eq.
      * intros pid' H. rewrite Hout by tauto.
        apply lookup_insert_ne. intros ->. apply H. left. reflexivity.
Qed.

Lemma reaper_iteration_goes_on P w f :
  fst (Supervisor.reaper_iteration P w f) = true.
Proof.
  unfold Supervisor.reaper_iteration.
  destruct (Nat.eqb _ 0 && Nat.eqb _ 0)%bool; [|reflexivity].
  destruct f; reflexivity.
Qed.

Lemma table_not_empty (m : gmap Z Z) (pid : Z) :
  is_Some (m !! pid) -> (0 <? Z.of_nat (size m)) = true.
Proof.
  intros [v Hv]. apply Z.ltb_lt.
  destruct (size m) eqn:Hs; [|lia].
  apply map_size_empty_iff in Hs. subst m.
  rewrite lookup_empty in Hv. discriminate.
Qed.

(** X10: once a child is in the child table the reaper loop is never
    left: no turn takes an entry out and no turn ends in [break], so
    the loop goes through everything [waitpid] and [fork] give, one
    turn after the other.  With an empty table the loop does nothing. *)
Theorem reaper_loop_is_never_left env1 env2 P pid :
  is_Some (Supervisor.childProcesses P !! pid) ->
  Supervisor.reaperLoop (env1 ++ env2) P
  = Supervisor.reaperLoop env2 (Supervisor.reaperLoop env1 P)
  /\ is_Some (Supervisor.childProcesses (Supervisor.reaperLoop env1 P) !! pid)
  /\ forall Q, Supervisor.childProcesses Q = ∅ -> Supervisor.reaperLoop env1 Q = Q.
Proof.
  intros Hin. split; [|split].
  - revert P Hin. induction env1 as [|[w f] env1 IH]; intros P Hin; simpl;
      [reflexivity|].
    rewrite (table_not_empty _ pid Hin).
    pose proof (reaper_iteration_goes_on P w f) as Hgo.
    pose proof (reaper_iteration_keeps_entries P w f pid Hin) as Hk.
    destruct (Supervisor.reaper_iteration P w f) as [again P']. simpl in *.
    subst again. apply IH. assumption.
  - apply reaperLoop_keeps_entries. assumption.
  - intros Q HQ. destruct env1 as [|[w f] env1]; simpl; [reflexivity|].
    rewrite HQ. reflexivity.
Qed.

Lemma reaper_loop_is_never_left_witness :
  let P := Supervisor.mkProcess 1311768467463790321 {[4242 := 4242]} 0 1 [] in
  let turn := (Supervisor.mkWaited 4242 0 false, Supervisor.ForkFailed) in
  is_Some (Supervisor.childProcesses (Supervisor.reaperLoop [turn; turn] P) !! 4242).
Proof.
  intros P turn.
  destruct (reaper_loop_is_never_left [turn; turn] [] P 4242) as (_ & H & _).
  - exists 4242. reflexivity.
  - exact H.
Defined.

Lemma reaper_iteration_no_fork P w f :
  (Supervisor.availableChildSessions P <> 0 \/ Supervisor.pendingPreSpawned P <> 0)%nat ->
  Supervisor.childProcesses (snd (Supervisor.reaper_iteration P w f))
  = Supervisor.childProcesses P
  /\ Supervisor.pendingPreSpawned (snd (Supervisor.reaper_iteration P w f))
     = Supervisor.pendingPreSpawned P.
Proof.
  intros H. unfold Supervisor.reaper_iteration.
  set (P1 := if ((Supervisor.w_pid w <? 0) && Supervisor.w_echild w)%bool
             then Supervisor.print _ P else P).
  assert (H1 : Supervisor.availableChildSessions P1 = Supervisor.availableChildSessions P
               /\ Supervisor.pendingPreSpawned P1 = Supervisor.pendingPreSpawned P
               /\ Supervisor.childProcesses P1 = Supervisor.childProcesses P).
  { subst P1. destruct (_ && _)%bool; simpl; auto. }
  clearbody P1. destruct H1 as (Ha1 & Hp1 & Ht1).
  set (P2 := if Supervisor.known_child_died P1 w
             then Supervisor.print _ P1 else P1).
  assert (H2 : Supervisor.availableChildSessions P2 = Supervisor.availableChildSessions P
               /\ Supervisor.pendingPreSpawned P2 = Supervisor.pendingPreSpawned P
               /\ Supervisor.childProcesses P2 = Supervisor.childProcesses P).
  { subst P2. destruct (Supervisor.known_child_died P1 w); simpl; auto. }
  clearbody P2. destruct H2 as (Ha2 & Hp2 & Ht2).
  rewrite Ha2, Hp2.
  destruct (Nat.eqb_spec (Supervisor.availableChildSessions P) 0);
    destruct (Nat.eqb_spec (Supervisor.pendingPreSpawned P) 0); simpl; auto.
  lia.
Qed.

(** X11: a turn of the reaper loop forks only when the two counts it
    reads at line 1055 are both 0.  [P] is the memory as the turn finds
    it: the counts are shared with the session threads, which change
    them between turns, so nothing is said of the turn after.  When one
    of the counts is not 0 the turn calls neither [fork] nor
    [createComponent]: the child table and the counts are as they
    were, nothing but the two notes is printed, and the loop goes on,
    whatever [waitpid] reports.  When both are 0 and [fork] gives a
    child, the child is recorded in the table. *)
Theorem reaper_forks_only_when_both_counts_are_zero P w f :
  let r := Supervisor.reaper_iteration P w f in
  ((Supervisor.availableChildSessions P <> 0
    \/ Supervisor.pendingPreSpawned P <> 0)%nat ->
   fst r = true
   /\ Supervisor.childProcesses (snd r) = Supervisor.childProcesses P
   /\ Supervisor.pendingPreSpawned (snd r) = Supervisor.pendingPreSpawned P
   /\ Supervisor.availableChildSessions (snd r) = Supervisor.availableChildSessions P
   /\ forall line,
       In line (Supervisor.cout (snd r)) ->
       In line (Supervisor.cout P)
       \/ line = "No child processes even if we think there should be some!?"%string
       \/ line = "One of our known child processes died"%string)
  /\ (Supervisor.availableChildSessions P = 0%nat ->
      Supervisor.pendingPreSpawned P = 0%nat ->
      forall pid, f = Supervisor.InParent pid ->
        fst r = true
        /\ Supervisor.childProcesses (snd r)
           = <[pid := pid]> (Supervisor.childProcesses P)).
Proof.
  intros r. split.
  - intros H.
    destruct (reaper_iteration_no_fork P w f H) as [Ht Hp].
    pose proof (reaper_iteration_goes_on P w f) as Hgo.
    fold r in Ht, Hp, Hgo.
    split; [exact Hgo|]. split; [exact Ht|]. split; [exact Hp|].
    assert (Hrest : Supervisor.availableChildSessions (snd r)
                    = Supervisor.availableChildSessions P
                    /\ forall line, In line (Supervisor.cout (snd r)) ->
                         In line (Supervisor.cout P)
                         \/ line = "No child processes even if we think there should be some!?"%string
                         \/ line = "One of our known child processes died"%string).
    { subst r. unfold Supervisor.reaper_iteration.
      set (P1 := if ((Supervisor.w_pid w <? 0) && Supervisor.w_echild w)%bool
                 then Supervisor.print _ P else P).
      assert (H1 : Supervisor.availableChildSessions P1 = Supervisor.availableChildSessions P
                   /\ Supervisor.pendingPreSpawned P1 = Supervisor.pendingPreSpawned P
                   /\ forall line, In line (Supervisor.cout P1) ->
                        In line (Supervisor.cout P)
                        \/ line = "No child processes even if we think there should be some!?"%string).
      { subst P1. destruct (_ && _)%bool; simpl; [|auto].
        split; [reflexivity|]. split; [reflexivity|].
        intros line Hin. apply in_app_or in Hin.
        destruct Hin as [Hin|[<-|[]]]; auto. }
      clearbody P1. destruct H1 as (Ha1 & Hp1 & Hc1).
      set (P2 := if Supervisor.known_child_died P1 w
                 then Supervisor.print _ P1 else P1).
      assert (H2 : Supervisor.availableChildSessions P2 = Supervisor.availableChildSessions P
                   /\ Supervisor.pendingPreSpawned P2 = Supervisor.pendingPreSpawned P
                   /\ forall line, In line (Supervisor.cout P2) ->
                        In line (Supervisor.cout P)
                        \/ line = "No child processes even if we think there should be some!?"%string
                        \/ line = "One of our known child processes died"%string).
      { subst P2. destruct (Supervisor.known_child_died P1 w); simpl.
        - split; [assumption|]. split; [assumption|].
          intros line Hin. apply in_app_or in Hin.
          destruct Hin as [Hin|[<-|[]]]; [|auto].
          destruct (Hc1 line Hin); auto.
        - split; [assumption|]. split; [assumption|].
          intros line Hin. destruct (Hc1 line Hin); auto. }
      clearbody P2. destruct H2 as (Ha2 & Hp2 & Hc2).
      rewrite Ha2, Hp2.
      destruct (Nat.eqb_spec (Supervisor.availableChildSessions P) 0);
        destruct (Nat.eqb_spec (Supervisor.pendingPreSpawned P) 0); simpl; auto.
      lia. }
    exact Hrest.
  - intros Ha Hp pid ->.
    destruct (reaper_spawns_one P w pid Ha Hp) as (_ & Ht & _).
    split; [apply reaper_iteration_goes_on | exact Ht].
Qed.

Lemma reaper_forks_only_when_both_counts_are_zero_witness :
  let P := Supervisor.mkProcess 1311768467463790321 {[4242 := 4242]} 1 0 [] in
  let dead := Supervisor.mkWaited 4242 0 false in
  let r := Supervisor.reaper_iteration P dead (Supervisor.InParent 4300) in
  Supervisor.childProcesses (snd r) !! 4300 = None
  /\ Supervisor.pendingPreSpawned (snd r) = 1%nat.
Proof.
  intros P dead r.
  destruct (reaper_forks_only_when_both_counts_are_zero P dead (Supervisor.InParent 4300))
    as [H _].
  destruct (H ltac:(right; discriminate)) as (_ & Ht & Hp & _).
  fold r in Ht, Hp. rewrite Ht, Hp. split; reflexivity.
Defined.

(** X12: the two draws can be read back from a child id: its upper 32
    bits are the first draw, its lower 32 bits the second draw with the
    lowest bit set.  So two second draws that differ in the lowest bit
    only give the same id. *)
Theorem child_id_keeps_both_draws first second :
  0 <= first < 2 ^ 32 ->
  0 <= second < 2 ^ 32 ->
  let id := Supervisor.newChildId first second in
  Z.shiftr id 32 = first
  /\ Z.land id (Z.ones 32) = Z.lor second 1
  /\ Supervisor.newChildId first (Z.lor second 1) = id.
Proof.
  intros H1 H2 id. subst id. unfold Supervisor.newChildId, Supervisor.UInt64.
  assert (Hsh : Z.shiftl first 32 mod 2 ^ 64 = Z.shiftl first 32).
  { apply Z.mod_small. rewrite Z.shiftl_mul_pow2 by lia. lia. }
  rewrite Hsh. rewrite <- !Z.lor_assoc.
  assert (Hlow : 0 <= Z.lor second 1 < 2 ^ 32)
    by (apply lor_below_pow2; lia).
  split; [|split].
  - rewrite Z.shiftr_lor, Z.shiftr_shiftl_l by lia.
    rewrite Z.sub_diag, Z.shiftl_0_r.
    rewrite (Z.shiftr_div_pow2 (Z.lor second 1)) by lia.
    rewrite Z.div_small by lia. apply Z.lor_0_r.
  - rewrite Z.land_lor_distr_l, !Z.land_ones by lia.
    rewrite Z.shiftl_mul_pow2 by lia. rewrite Z.mod_mul by lia.
    rewrite Z.mod_small by lia. reflexivity.
  - f_equal; rewrite <- ?Z.lor_assoc; reflexivity.
Qed.

Lemma child_id_keeps_both_draws_witness :
  Z.shiftr (Supervisor.newChildId 305419896 2596069104) 32 = 305419896
  /\ Supervisor.newChildId 305419896 2596069105
     = Supervisor.newChildId 305419896 2596069104.
Proof.
  destruct (child_id_keeps_both_draws 305419896 2596069104
              ltac:(lia) ltac:(lia)) as (H1 & _ & H3).
  split; [exact H1 | exact H3].
Defined.

(** ** The jail builder, further *)

Section WalkFacts.
Import FS Jail.


Lemma callback_keeps apple source destination fpath flag F :
  keeps F (result_fs (linkOrCopyFunction apple source destination fpath flag F)).
Proof.
  unfold linkOrCopyFunction.
  destruct (path_eqb source fpath); [apply keeps_refl|].
  destruct (relative source fpath) as [[|c rel]|]; try apply keeps_refl.
  destruct (apple && _)%bool; [apply keeps_refl|].
  destruct flag; try apply keeps_refl.
  - destruct (createDirectories _ F) as [[|] F1] eqn:Hcd;
      [|exact (createDirectories_keeps_all _ _ _ _ Hcd)].
    destruct (link fpath _ F1) as [F2|] eqn:Hl; simpl;
      [|exact (createDirectories_keeps_all _ _ _ _ Hcd)].
    eapply keeps_trans;
      [exact (createDirectories_keeps_all _ _ _ _ Hcd) | exact (link_keeps _ _ _ _ Hl)].
  - destruct (stat_times fpath F); [|apply keeps_refl].
    destruct (createDirectories _ F) as [[|] F1] eqn:Hcd;
      [|exact (createDirectories_keeps_all _ _ _ _ Hcd)].
    destruct (utime _ _ F1) as [F2|] eqn:Hu; simpl;
      [|exact (createDirectories_keeps_all _ _ _ _ Hcd)].
    eapply keeps_trans;
      [exact (createDirectories_keeps_all _ _ _ _ Hcd) | exact (utime_keeps _ _ _ _ Hu)].
Qed.


Lemma nftw_keeps apple source destination fails entries : forall F,
  keeps F (result_fs (nftw apple source destination fails entries F)).
Proof.
  induction entries as [|[fpath flag] entries IH]; intros F; simpl;
    [apply keeps_refl|].
  pose proof (callback_keeps apple source destination fpath flag F) as Hk.
  destruct (linkOrCopyFunction apple source destination fpath flag F)
    as [v F'|c F'|F'|F']; simpl in Hk; try exact Hk.
  destruct v; try exact Hk.
  eapply keeps_trans; [exact Hk | apply IH].
Qed.


(** X13: the walk of the jail builder takes nothing away and changes
    no file: every regular file that was there before [linkOrCopy] is
    there afterwards with the same inode and bytes, and every directory
    is still a directory, however the walk ends. *)
Theorem walk_keeps_what_is_there apple source destination fails entries F p n :
  tree F !! p = Some n ->
  let F' := result_fs (linkOrCopy apple source destination fails entries F) in
  match n with
  | File ino data => tree F' !! p = Some (File ino data)
  | Dir _ _ => exists a m, tree F' !! p = Some (Dir a m)
  end.
Proof.
  intros Hn F'. subst F'. unfold linkOrCopy.
  exact (nftw_keeps apple (components source) destination fails entries F p n Hn).
Qed.



End WalkFacts.

Lemma walk_keeps_what_is_there_witness :
  FS.file_data ["sys"; "libc.so"]%string
    (result_fs (Jail.linkOrCopy false "/sys" ["jail"%string] false
                  [(["sys"; "libc.so"]%string, Jail.FTW_F);
                   (["sys"]%string, Jail.FTW_DP)] two_devices))
  = Some "ELF"%string.
Proof.
  pose proof (walk_keeps_what_is_there false "/sys" ["jail"%string] false
                [(["sys"; "libc.so"]%string, Jail.FTW_F);
                 (["sys"]%string, Jail.FTW_DP)] two_devices
                ["sys"; "libc.so"]%string (FS.File 7 "ELF") eq_refl) as H.
  cbv zeta in H. unfold FS.file_data. rewrite H. reflexivity.
Defined.


Section DirectoryFacts.
Import FS Jail.


End DirectoryFacts.


(** ** The file-transfer handler, further *)

Section TransferMore.
Import FS FileTransfer.

Variable linux : bool.


(** X18: a command that was answered "OK" can be sent again: the
    second time the handler answers "OK" as well and changes nothing.
    More generally it answers "OK" and does nothing whenever the
    destination and the directory above it exist, whether or not the
    source exists. *)
Theorem transfer_twice_changes_nothing command src dst F F' :
  LOOLProtocol.StringTokenizer command " " = [src; dst] ->
  well_formed F ->
  transferFile linux command F = (OK, F') ->
  transferFile linux command F' = (OK, F')
  /\ forall command2 src2 G,
      LOOLProtocol.StringTokenizer command2 " " = [src2; dst] ->
      File_exists (parsePath (home G) dst) G = Some true ->
      File_exists (makeParent (parsePath (home G) dst)) G = Some true ->
      transferFile linux command2 G = (OK, G).
Proof.
  intros Htok Hwf Hok.
  destruct (transfer_ok_inv linux command src dst F F' Htok Hwf Hok)
    as (_ & _ & _ & _ & Hh & HP & HD & _).
  split.
  - apply (transfer_of_existing_destination linux command src dst F' Htok);
      rewrite Hh; assumption.
  - intros command2 src2 G Htok2 Hd2 Hp2.
    exact (transfer_of_existing_destination linux _ _ _ _ Htok2 Hd2 Hp2).
Qed.

End TransferMore.

Lemma transfer_twice_changes_nothing_witness :
  let command := "/srv/new.odt /jail/docs/new.odt"%string in
  let F' := snd (FileTransfer.transferFile true command two_devices) in
  FileTransfer.transferFile true command F' = (FileTransfer.OK, F')
  /\ FileTransfer.transferFile true "/no/such/file /jail/docs/new.odt" F'
     = (FileTransfer.OK, F').
Proof.
  intros command F'.
  assert (Hok : FileTransfer.transferFile true command two_devices
                = (FileTransfer.OK, F')) by (vm_compute; reflexivity).
  destruct (transfer_twice_changes_nothing true command
              "/srv/new.odt" "/jail/docs/new.odt" two_devices F'
              eq_refl two_devices_well_formed Hok) as [H1 H2].
  split; [exact H1|].
  apply (H2 "/no/such/file /jail/docs/new.odt"%string "/no/such/file"%string F' eq_refl);
    vm_compute; reflexivity.
Defined.

(** ** No empty message *)

Section NoEmptyMessage.
Import WebSocket Master.

Variable handleInput : list string -> string -> bool.
Variable stack : Z.

Lemma data_frame_positive n flags : data_frame n flags = true -> 0 < n.
Proof.
  unfold data_frame. intros H. apply andb_true_iff in H.
  destruct H as [H _]. apply Z.ltb_lt. assumption.
Qed.

Lemma receiver_step_nonempty kind W w :
  Forall (fun x => 0 < Str.size x) (queue W) ->
  Forall (fun x => 0 < Str.size x) (inputs W) ->
  Forall (fun x => 0 < Str.size x) (queue (receiver_step handleInput stack kind W w))
  /\ Forall (fun x => 0 < Str.size x) (inputs (receiver_step handleInput stack kind W w)).
Proof.
  intros Hq Hi. unfold receiver_step.
  assert (Hadd : forall l x, Forall (fun x => 0 < Str.size x) l -> 0 < Str.size x ->
                             Forall (fun x => 0 < Str.size x) (l ++ [x])).
  { intros l x Hl Hx. apply Forall_app. split; [assumption|].
    constructor; [assumption|constructor]. }
  destruct (receiver W); [| |auto|auto|auto].
  - destruct (receiveFrame 100000 w) as [n flags buffer|e] eqn:Hrf;
      [|simpl; split; [constructor|assumption]].
    apply receiveFrame_inv in Hrf. destruct Hrf as (-> & -> & _).
    destruct (data_frame _ flags) eqn:Hd; [|simpl; split; [constructor|assumption]].
    apply data_frame_positive in Hd.
    destruct (Kind_eqb kind ToClient && _)%bool eqn:Hk.
    + apply andb_true_iff in Hk. destruct Hk as [_ Hk]. apply Z.eqb_eq in Hk.
      destruct (is_canceltiles _); simpl.
      * split; [apply remove_if_Forall; assumption | apply Hadd; assumption].
      * split; [apply Hadd; [assumption|lia] | assumption].
    + destruct (nextmessage _); simpl;
        [unfold largeBuffer; destruct (_ <=? _); simpl; auto|].
      destruct (handleInput (inputs W) buffer); simpl;
        (split; [try constructor; assumption | apply Hadd; assumption]).
  - destruct (receiveFrame size w) as [n flags buffer|e] eqn:Hrf;
      [|simpl; split; [constructor|assumption]].
    apply receiveFrame_inv in Hrf. destruct Hrf as (-> & -> & _).
    destruct (data_frame _ flags) eqn:Hd; [|simpl; split; [constructor|assumption]].
    apply data_frame_positive in Hd. simpl.
    destruct (handleInput (inputs W) buffer); simpl;
      (split; [try constructor; assumption | apply Hadd; assumption]).
Qed.

(** X19: [handleInput] is never given an empty message: in every
    interleaving of the receiver and the queue handler of a fresh
    session, every message handed to [handleInput] and every element
    of the work queue has at least one byte. *)
Theorem no_empty_message kind W :
  rtc (sys_step handleInput stack kind) (start kind) W ->
  Forall (fun x => 0 < Str.size x) (inputs W)
  /\ Forall (fun x => 0 < Str.size x) (queue W).
Proof.
  intros Hsteps.
  assert (Hgen : forall W0,
            Forall (fun x => 0 < Str.size x) (inputs W0) ->
            Forall (fun x => 0 < Str.size x) (queue W0) ->
            rtc (sys_step handleInput stack kind) W0 W ->
            Forall (fun x => 0 < Str.size x) (inputs W)
            /\ Forall (fun x => 0 < Str.size x) (queue W)).
  { clear Hsteps. intros W0 Hi Hq Hsteps.
    induction Hsteps as [W|W0 W1 W Hstep Hsteps IH]; [auto|].
    destruct Hstep as [W0 w _|W0 _|W0 W1 _ Hc].
    - destruct (receiver_step_nonempty kind W0 w Hq Hi) as [Hq1 Hi1].
      apply IH; assumption.
    - apply IH; [assumption|]. unfold put_eof, tsqueue.put. simpl.
      apply Forall_app. split; [assumption|].
      constructor; [vm_compute; reflexivity|constructor].
    - apply consumer_step_takes_head in Hc.
      destruct Hc as (input & Hin & Hinputs).
      rewrite Hin in Hq. inversion Hq as [|x l Hx Hl]; subst.
      apply IH; [|assumption].
      destruct Hinputs as [->|[_ ->]]; [assumption|].
      apply Forall_app. split; [assumption|]. constructor; [assumption|constructor]. }
  apply (Hgen (start kind)); [constructor|constructor|assumption].
Qed.

End NoEmptyMessage.

Lemma no_empty_message_witness :
  let h := fun (_ : list string) (_ : string) => true in
  let W1 := Master.receiver_step h example_stack Master.ToPrisoner (Master.start Master.ToPrisoner)
              (WebSocket.Frame 129 "status: ready") in
  Forall (fun x => 0 < Str.size x) (Master.inputs W1).
Proof.
  intros h W1.
  assert (Hsteps : rtc (Master.sys_step h example_stack Master.ToPrisoner)
                       (Master.start Master.ToPrisoner) W1).
  { apply rtc_once. apply Master.step_receive. left. reflexivity. }
  destruct (no_empty_message h example_stack Master.ToPrisoner W1 Hsteps) as [H _].
  exact H.
Defined.


(** [startupDesktop] records every desktop a fork gave, as
    [startupComponent] does for components. *)
Lemma startupDesktop_records forks : forall P,
  (forall pid, In (Supervisor.InParent pid) forks ->
               Supervisor.childProcesses (Supervisor.startupDesktop forks P) !! pid
               = Some pid)
  /\ (forall pid, ~ In (Supervisor.InParent pid) forks ->
                  Supervisor.childProcesses (Supervisor.startupDesktop forks P) !! pid
                  = Supervisor.childProcesses P !! pid).
Proof.
  induction forks as [|f forks IH]; intros P; simpl; [split; tauto|].
  destruct f as [|pid]; simpl.
  - destruct (IH (Supervisor.print "createDesktop fork failed." P)) as [Hin Hout].
    simpl in *. split.
    + intros pid [H|H]; [discriminate|]. apply Hin. assumption.
    + intros pid H. apply Hout. tauto.
  - destruct (IH (Supervisor.record_child pid P)) as [Hin Hout].
    simpl in *. split.
    + intros pid' [H|H]; [|apply Hin; assumption].
      injection H as ->.
      assert (Hdec : forall a b : Supervisor.forked, {a = b} + {a <> b})
        by (decide equality; apply Z.eq_dec).
      destruct (in_dec Hdec (Supervisor.InParent pid') forks) as [Hyes|Hno];
        [apply Hin; assumption|].
      rewrite Hout by assumption. apply lookup_insert_eq.
    + intros pid' H. rewrite Hout by tauto.
      apply lookup_insert_ne. intros ->. apply H. left. reflexivity.
Qed.

(** ** "canceltiles" with a line feed *)

Section CancelWithLineFeed.
Import WebSocket Master.

Variable handleInput : list string -> string -> bool.
Variable stack : Z.

(** X20: on a ToClient session a "canceltiles" frame of more than one
    line, such as one that ends with a line feed, prunes nothing: it is
    handed to [handleInput] and the queue keeps its tiles.  Unlike for
    the one-line frame, the session ends when [handleInput] returns
    false for it. *)
Theorem canceltiles_with_line_feed_prunes_nothing W flags frame :
  receiver W = AtReceive ->
  arrives 100000 flags frame = true ->
  single_line frame = false ->
  is_canceltiles (tokens_of frame) = true ->
  let W' := receiver_step handleInput stack ToClient W (Frame flags frame) in
  inputs W' = inputs W ++ [frame]
  /\ if handleInput (inputs W) frame
     then queue W' = queue W /\ receiver W' = AtReceive
     else queue W' = [] /\ receiver W' = AtPutEof.
Proof.
  intros Hpc Harr Hline Hc W'. subst W'.
  rewrite receiver_step_at_receive by assumption.
  rewrite Hline. simpl.
  assert (Hn : nextmessage (tokens_of frame) = None).
  { unfold is_canceltiles in Hc. unfold nextmessage.
    destruct (tokens_of frame) as [|t0 [|t1 l]]; try discriminate. reflexivity. }
  rewrite Hn. destruct (handleInput (inputs W) frame); simpl; auto.
Qed.

End CancelWithLineFeed.

Lemma canceltiles_with_line_feed_prunes_nothing_witness :
  let h := fun (_ : list string) (_ : string) => true in
  let frame := Str.push_back "canceltiles" LOOLProtocol.LF in
  let W := Master.mkWorld ["tile part=0 x=0"%string] [] Master.AtReceive Master.Running in
  let W' := Master.receiver_step h example_stack Master.ToClient W (WebSocket.Frame 129 frame) in
  Master.queue W' = ["tile part=0 x=0"%string] /\ Master.inputs W' = [frame].
Proof.
  intros h frame W W'.
  destruct (canceltiles_with_line_feed_prunes_nothing h example_stack W 129 frame
              eq_refl eq_refl eq_refl eq_refl) as [Hi [Hq _]].
  split; [exact Hq | exact Hi].
Defined.
